(** * scripts/extract_cv.py: the candidate-name heuristic and the output record

    A shallow embedding of [guess_candidate_name] and of the payload built by
    [main].  A Python [str] is a sequence of Unicode code points, modelled as
    [list N].  The built-in string methods the script calls are modelled one
    by one; the three that read Python's Unicode character tables
    ([str.isalpha], [str.upper], [str.lower]) are taken from a record [UCD]
    so that every statement holds for whatever tables the interpreter ships. *)

From Stdlib Require Import NArith List Bool Ascii String Lia Permutation.
From stdpp Require Import gmap strings list.
Import ListNotations.

Open Scope N_scope.

(** ** Strings *)

Definition str := list N.

(** An ASCII literal as a Python string. *)
Definition lit (s : string) : str :=
  List.map N_of_ascii (list_ascii_of_string s).

Definition LF : N := 10.
Definition CR : N := 13.
Definition SPACE : N := 32.
Definition HYPHEN : N := 45.
Definition COLON : N := 58.

(** [bool(s)] for a string: non-empty. *)
Definition truthy (s : str) : bool :=
  match s with [] => false | _ :: _ => true end.

(** ** Character classes that are fixed small sets *)

(** Line boundaries of [str.splitlines]. *)
Definition is_linebreak (c : N) : bool :=
  ((10 <=? c) && (c <=? 13)) || ((28 <=? c) && (c <=? 30))
  || (c =? 133) || (c =? 8232) || (c =? 8233).

(** Whitespace of [str.strip] and [str.split] without arguments. *)
Definition is_space (c : N) : bool :=
  ((9 <=? c) && (c <=? 13)) || ((28 <=? c) && (c <=? 32))
  || (c =? 133) || (c =? 160) || (c =? 5760)
  || ((8192 <=? c) && (c <=? 8202))
  || (c =? 8232) || (c =? 8233) || (c =? 8239) || (c =? 8287) || (c =? 12288).

Definition nonspace (c : N) : Prop := is_space c = false.
Definition is_ascii (c : N) : Prop := c < 128.

(** ** The ASCII rows of the character tables *)

Definition ascii_isupper (c : N) : bool := (65 <=? c) && (c <=? 90).
Definition ascii_islower (c : N) : bool := (97 <=? c) && (c <=? 122).
Definition ascii_isalpha (c : N) : bool := ascii_isupper c || ascii_islower c.
Definition ascii_upper (c : N) : N := if ascii_islower c then c - 32 else c.
Definition ascii_lower (c : N) : N := if ascii_isupper c then c + 32 else c.

(** ** The character tables as a parameter *)

Record UCD := {
  isalpha : N -> bool;     (* [c.isalpha()] for a one-character string *)
  upper : str -> str;      (* [s.upper()] *)
  lower : str -> str;      (* [s.lower()] *)
}.

(** What the statements below need of the tables; all of it holds of
    CPython's: the ASCII rows, and that case conversion neither deletes a
    character nor turns one into whitespace. *)
Record UCD_ok (U : UCD) : Prop := {
  isalpha_ascii : forall c, is_ascii c -> isalpha U c = ascii_isalpha c;
  upper_ascii : forall s, Forall is_ascii s -> upper U s = List.map ascii_upper s;
  lower_ascii : forall s, Forall is_ascii s -> lower U s = List.map ascii_lower s;
  upper_token : forall s, s <> [] -> Forall nonspace s ->
                          upper U s <> [] /\ Forall nonspace (upper U s);
  lower_token : forall s, Forall nonspace s -> Forall nonspace (lower U s);
}.


(** The rows for U+0000..U+00FF, with full case mappings as [str.upper] and
    [str.lower] apply them: U+00DF (sharp s) upper-cases to two characters,
    U+00B5 and U+00FF to characters outside the block.  Code points above
    U+00FF are left as caseless symbols; this instance is only evaluated
    on inputs inside the block. *)
Module Latin1.

Definition alpha (c : N) : bool :=
  ascii_isalpha c || (c =? 170) || (c =? 181) || (c =? 186)
  || ((192 <=? c) && (c <=? 214)) || ((216 <=? c) && (c <=? 246))
  || ((248 <=? c) && (c <=? 255)).

Definition toupper (c : N) : str :=
  if ascii_islower c then [c - 32]
  else if c =? 181 then [924]
  else if c =? 223 then [83; 83]
  else if ((224 <=? c) && (c <=? 246)) || ((248 <=? c) && (c <=? 254)) then [c - 32]
  else if c =? 255 then [376]
  else [c].

Definition tolower (c : N) : str :=
  if ascii_isupper c then [c + 32]
  else if ((192 <=? c) && (c <=? 214)) || ((216 <=? c) && (c <=? 222)) then [c + 32]
  else [c].

Definition ucd : UCD :=
  {| isalpha := alpha;
     upper := fun s => List.flat_map toupper s;
     lower := fun s => List.flat_map tolower s |}.

End Latin1.

(** ** Built-in string methods *)

(** [s.splitlines()]: a line ends at a line boundary, CR LF counts as one,
    and a final boundary opens no further line. *)
Fixpoint splitlines (s : str) : list str :=
  match s with
  | [] => []
  | c :: s' =>
      if is_linebreak c then
        [] :: match s' with
              | c' :: s'' => if (c =? CR) && (c' =? LF) then splitlines s''
                             else splitlines s'
              | [] => []
              end
      else
        match splitlines s' with
        | [] => [[c]]
        | l :: ls => (c :: l) :: ls
        end
  end.

Fixpoint lstrip (s : str) : str :=
  match s with
  | [] => []
  | c :: s' => if is_space c then lstrip s' else s
  end.

Definition rstrip (s : str) : str := rev (lstrip (rev s)).

(** [s.strip()] *)
Definition strip (s : str) : str := rstrip (lstrip s).

(** [s.split()]: maximal runs of non-whitespace characters. *)
Fixpoint split (s : str) : list str :=
  match s with
  | [] => []
  | c :: s' =>
      if is_space c then split s'
      else match s' with
           | [] => [[c]]
           | c' :: _ =>
               if is_space c' then [c] :: split s'
               else match split s' with
                    | [] => [[c]]
                    | t :: ts => (c :: t) :: ts
                    end
           end
  end.

Fixpoint startswith (s p : str) {struct p} : bool :=
  match p, s with
  | [], _ => true
  | _ :: _, [] => false
  | a :: p', b :: s' => (a =? b) && startswith s' p'
  end.

(** [sub in s] *)
Fixpoint contains (s sub : str) : bool :=
  startswith s sub
  || match s with
     | [] => false
     | _ :: s' => contains s' sub
     end.

(** [s.split(":", 1)]: one piece without a colon, else the text before the
    first colon and the text after it. *)
Fixpoint split_colon_1 (s : str) : list str :=
  match s with
  | [] => [[]]
  | c :: s' =>
      if c =? COLON then [[]; s']
      else match split_colon_1 s' with
           | [] => [[c]]
           | h :: t => (c :: h) :: t
           end
  end.

(** [s.replace(a, b)] for one-character [a]; [b] is a string. *)
Definition replace (a : N) (b : str) (s : str) : str :=
  List.flat_map (fun c => if c =? a then b else [c]) s.

(** [s.isalpha()]: false on the empty string. *)
Definition str_isalpha (U : UCD) (s : str) : bool :=
  truthy s && List.forallb (isalpha U) s.

(** [sep.join(parts)] *)
Fixpoint join (sep : str) (parts : list str) : str :=
  match parts with
  | [] => []
  | [p] => p
  | p :: ps => p ++ sep ++ join sep ps
  end.

(** ** guess_candidate_name *)

Definition skip_keywords : list str :=
  List.map lit
    ["location"; "country"; "phone"; "email"; "summary"; "profile";
     "experience"; "skills"; "tech"; "stack"; "linkedin"; "github";
     "contact"]%string.

Section Guess.

Variable U : UCD.
(** The order in which the interpreter iterates the set [skip_keywords];
    it varies from one process to the next. *)
Variable order : list str.

(** [token.replace("-", "").isalpha()] *)
Definition is_alpha_token (token : str) : bool :=
  str_isalpha U (replace HYPHEN [] token).

(** [token[:1].upper() + token[1:].lower()] *)
Definition capitalize (token : str) : str :=
  upper U (firstn 1 token) ++ lower U (skipn 1 token).

(** The candidate lines, lines 29-33. *)
Definition candidate_lines (text : str) : list str :=
  List.map strip
    (List.filter
       (fun line => truthy (strip line) && (length (strip line) <=? 60)%nat)
       (splitlines text)).

(** Line 36. *)
Definition normalize (line : str) : str :=
  if contains line [COLON] then strip (List.last (split_colon_1 line) [])
  else line.

(** Line 38. *)
Definition blocked (normalized : str) : bool :=
  let lower := lower U normalized in
  List.existsb (fun keyword => contains lower keyword) order.

(** Lines 40-44. *)
Definition alpha_tokens (s : str) : list str :=
  List.filter is_alpha_token (split s).

(** The body of the loop for one line: [Some r] when it returns [r],
    [None] when control goes on to the next line. *)
Definition line_guess (line : str) : option str :=
  let normalized := normalize line in
  if blocked normalized then None
  else
    let tokens := alpha_tokens normalized in
    if (2 <=? length tokens)%nat then
      if (length tokens =? 2)%nat then
        Some (join [SPACE] (List.map capitalize tokens))
      else
        Some (join [SPACE] (List.map capitalize (firstn 2 tokens)))
    else None.

(** [for line in ...], leaving at the first [return]. *)
Fixpoint scan (lines : list str) : option str :=
  match lines with
  | [] => None
  | line :: rest =>
      match line_guess line with
      | Some r => Some r
      | None => scan rest
      end
  end.

(** Lines 35-54 on a document. *)
Definition line_scan (text : str) : option str :=
  scan (firstn 20 (candidate_lines text)).

(** Lines 56-67. *)
Definition fallback (text : str) : str :=
  let words := alpha_tokens (replace LF [SPACE] text) in
  if (2 <=? length words)%nat then
    join [SPACE] (List.map (fun i => capitalize (nth i words [])) (seq 0 2))
  else [].

Definition guess_with (text : str) : str :=
  match line_scan text with
  | Some formatted => formatted
  | None => fallback text
  end.

End Guess.

Definition guess_candidate_name (U : UCD) (text : str) : str :=
  guess_with U skip_keywords text.


(** ** extract_text and main *)

(** What [main] leaves on standard output: the error record with exit
    status 1, or the payload dictionary that is serialised. *)
Inductive outcome :=
| Failure (error : string)
| Success (payload : gmap string str).

Section Main.

Variable U : UCD.
(** [Path.exists]. *)
Variable path_exists : string -> bool.
(** [PdfReader(path).pages] with [extract_text()] taken on each page:
    [inl exc] when the library raises, else the text of every page, [None]
    where a page gives no text. *)
Variable read_pages : string -> string + list (option str).

(** [extract_text], lines 70-76. *)
Definition extract_text (path : string) : string + str :=
  match read_pages path with
  | inl exc => inl exc
  | inr pages =>
      let chunks := List.map (fun extracted => default [] extracted) pages in
      inr (strip (join [LF] chunks))
  end.

(** Lines 95-98. *)
Definition build_payload (text : str) : gmap string str :=
  let payload : gmap string str := {[ "text"%string := text ]} in
  let candidate_name := guess_candidate_name U text in
  if truthy candidate_name then <[ "name"%string := candidate_name ]> payload
  else payload.

(** [main], lines 79-100, on [sys.argv]. *)
Definition main (argv : list string) : outcome :=
  if (length argv <? 2)%nat then Failure "Missing file path argument."
  else
    let file_path := nth 1 argv ""%string in
    if negb (path_exists file_path) then Failure "File does not exist."
    else
      match extract_text file_path with
      | inl exc => Failure ("Failed to read PDF: " ++ exc)
      | inr text => Success (build_payload text)
      end.

End Main.

(** * Vocabulary of the statements *)

(** Where [splitlines] resumes after a line boundary. *)
Definition after_break (c : N) (s : str) : str :=
  match s with
  | c' :: s' => if (c =? CR) && (c' =? LF) then s' else s
  | [] => []
  end.

(** A token as [str.split] produces them. *)
Definition is_token (t : str) : Prop := t <> [] /\ Forall nonspace t.

Section Vocabulary.

Variable U : UCD.
Variable order : list str.

(** A line passes the blocklist and has at least two alpha tokens. *)
Definition qualifies (line : str) : bool :=
  negb (blocked U order (normalize line))
  && (2 <=? length (alpha_tokens U (normalize line)))%nat.

(** The first two tokens, capitalised, with one space between them. *)
Definition first_two (tokens : list str) : str :=
  capitalize U (nth 0 tokens []) ++ [SPACE] ++ capitalize U (nth 1 tokens []).

(** First character in upper case, remainder in lower case: neither
    [upper] nor [lower] changes its part. *)
Definition capitalized (t : str) : Prop :=
  upper U (firstn 1 t) = firstn 1 t /\ lower U (skipn 1 t) = skipn 1 t.

(** A name guess: empty, or two capitalised tokens with one space between. *)
Definition name_guess (r : str) : Prop :=
  r = [] \/
  exists t1 t2, r = t1 ++ [SPACE] ++ t2
                /\ is_token t1 /\ is_token t2
                /\ capitalized t1 /\ capitalized t2.

End Vocabulary.

(** An upper-case ASCII letter or a hyphen, then lower-case ASCII letters
    and hyphens. *)
Definition ascii_capitalized (t : str) : Prop :=
  match t with
  | [] => False
  | c :: r =>
      (ascii_isupper c = true \/ c = HYPHEN)
      /\ Forall (fun d => ascii_islower d = true \/ d = HYPHEN) r
  end.

(** The example text with a label line in front of the name. *)
Definition contact_example : str :=
  lit "Contact: jane@example.com" ++ [LF] ++ lit "John Smith" ++ [LF]
  ++ lit "Skills: Python".

(** Twenty lines "x", then "Jane Doe" as the 21st. *)
Definition late_name_example : str :=
  concat (repeat (lit "x" ++ [LF]) 20) ++ lit "Jane Doe".

(** * Properties *)

(** ** Characters *)

(** Boolean range tests to linear arithmetic. *)
Ltac char_prop :=
  unfold nonspace, is_ascii, ascii_isalpha, ascii_isupper, ascii_islower,
    is_linebreak, is_space, LF, CR, SPACE, HYPHEN, COLON in *;
  repeat first
    [ rewrite orb_true_iff in * | rewrite andb_true_iff in *
    | rewrite orb_false_iff in * | rewrite andb_false_iff in *
    | rewrite N.leb_le in * | rewrite N.leb_gt in *
    | rewrite N.eqb_eq in * | rewrite N.eqb_neq in * ].

Ltac char_cases := char_prop; lia.

Lemma linebreak_is_space c : is_linebreak c = true -> is_space c = true.
Proof. intros H. char_cases. Qed.

(** ** The pieces of a string *)

Lemma length_ind (P : list N -> Prop) :
  (forall s, (forall t, (length t < length s)%nat -> P t) -> P s) ->
  forall s, P s.
Proof.
  intros step s. remember (length s) as n eqn:Hn.
  revert s Hn. induction n as [n IH] using lt_wf_ind.
  intros s ->. apply step. intros t Ht. exact (IH _ Ht t eq_refl).
Qed.

Lemma splitlines_break c s :
  is_linebreak c = true ->
  splitlines (c :: s) = [] :: splitlines (after_break c s).
Proof.
  intros H. simpl. rewrite H. destruct s as [|c' s']; simpl; [done|].
  by destruct ((c =? CR) && (c' =? LF)).
Qed.

Lemma splitlines_char c s :
  is_linebreak c = false ->
  splitlines (c :: s) =
    match splitlines s with [] => [[c]] | l :: ls => (c :: l) :: ls end.
Proof. intros H. simpl. by rewrite H. Qed.

Lemma after_break_length c s : (length (after_break c s) <= length s)%nat.
Proof.
  destruct s as [|c' s']; simpl; [lia|].
  destruct ((c =? CR) && (c' =? LF)); simpl; lia.
Qed.

Lemma after_break_suffix c s : exists p, s = p ++ after_break c s.
Proof.
  destruct s as [|c' s']; simpl; [by exists []|].
  destruct ((c =? CR) && (c' =? LF)); [by exists [c'] | by exists []].
Qed.

Section Pieces.

Variable P : N -> Prop.

Lemma splitlines_Forall s : Forall P s -> Forall (Forall P) (splitlines s).
Proof.
  induction s as [s IH] using length_ind. intros Hs.
  destruct s as [|c s']; [constructor|].
  inversion Hs as [|? ? Hc Hs']; subst.
  destruct (is_linebreak c) eqn:Hb.
  - rewrite splitlines_break by done. constructor; [constructor|].
    apply IH.
    + pose proof (after_break_length c s'). simpl. lia.
    + destruct (after_break_suffix c s') as [p Hp].
      rewrite Hp in Hs'. by apply Forall_app in Hs' as [_ ?].
  - rewrite splitlines_char by done.
    assert (Forall (Forall P) (splitlines s')) as H by (apply IH; simpl; [lia|done]).
    destruct (splitlines s') as [|l ls]; [by repeat constructor|].
    inversion H; subst. by repeat constructor.
Qed.

Lemma lstrip_Forall s : Forall P s -> Forall P (lstrip s).
Proof.
  induction 1 as [|c s Hc Hs IH]; simpl; [constructor|].
  destruct (is_space c); [done | by constructor].
Qed.

Lemma rstrip_Forall s : Forall P s -> Forall P (rstrip s).
Proof.
  intros H. unfold rstrip. apply Forall_rev, lstrip_Forall, Forall_rev, H.
Qed.

Lemma strip_Forall s : Forall P s -> Forall P (strip s).
Proof. intros H. by apply rstrip_Forall, lstrip_Forall. Qed.

Lemma split_Forall s : Forall P s -> Forall (Forall P) (split s).
Proof.
  induction 1 as [|c s Hc Hs IH]; [constructor|].
  simpl. destruct (is_space c); [done|].
  destruct s as [|c' s']; [by repeat constructor|].
  destruct (is_space c'); [by repeat constructor|].
  destruct (split (c' :: s')) as [|t ts]; [by repeat constructor|].
  inversion IH; subst. by repeat constructor.
Qed.

Lemma split_colon_1_Forall s :
  Forall P s -> Forall (Forall P) (split_colon_1 s).
Proof.
  induction 1 as [|c s Hc Hs IH]; simpl; [by repeat constructor|].
  destruct (c =? COLON); [by repeat constructor|].
  destruct (split_colon_1 s) as [|h t]; [by repeat constructor|].
  inversion IH; subst. by repeat constructor.
Qed.

Lemma last_Forall (l : list str) : Forall (Forall P) l -> Forall P (List.last l []).
Proof.
  induction 1 as [|x l Hx Hl IH]; [constructor|].
  destruct l; [done|]. exact IH.
Qed.

Lemma replace_Forall a b s : Forall P b -> Forall P s -> Forall P (replace a b s).
Proof.
  intros Hb. induction 1 as [|c s Hc Hs IH]; simpl; [constructor|].
  apply Forall_app. split; [|exact IH].
  destruct (c =? a); [done | by constructor].
Qed.

End Pieces.

(** ** The Latin-1 rows satisfy the laws *)

Ltac case_if :=
  repeat match goal with
         | |- context [if ?b then _ else _] => destruct b eqn:?
         end.

Lemma Latin1_alpha_ascii c : is_ascii c -> Latin1.alpha c = ascii_isalpha c.
Proof.
  intros Hc. unfold Latin1.alpha.
  destruct (ascii_isalpha c); [done|]. simpl. char_cases.
Qed.

Lemma Latin1_toupper_ascii c : is_ascii c -> Latin1.toupper c = [ascii_upper c].
Proof.
  intros Hc. unfold Latin1.toupper, ascii_upper.
  case_if; try done; char_cases.
Qed.

Lemma Latin1_tolower_ascii c : is_ascii c -> Latin1.tolower c = [ascii_lower c].
Proof.
  intros Hc. unfold Latin1.tolower, ascii_lower.
  case_if; try done; char_cases.
Qed.

Lemma Latin1_toupper_nonspace c :
  nonspace c -> Latin1.toupper c <> [] /\ Forall nonspace (Latin1.toupper c).
Proof.
  intros Hc. unfold Latin1.toupper.
  case_if; (split; [done|]); repeat constructor; char_cases.
Qed.

Lemma Latin1_tolower_nonspace c : nonspace c -> Forall nonspace (Latin1.tolower c).
Proof.
  intros Hc. unfold Latin1.tolower.
  case_if; repeat constructor; char_cases.
Qed.

Lemma Latin1_ok : UCD_ok Latin1.ucd.
Proof.
  split; simpl.
  - exact Latin1_alpha_ascii.
  - induction 1 as [|c s Hc Hs IH]; simpl; [done|].
    by rewrite Latin1_toupper_ascii, IH.
  - induction 1 as [|c s Hc Hs IH]; simpl; [done|].
    by rewrite Latin1_tolower_ascii, IH.
  - intros s Hne Hs. split.
    + destruct Hs as [|c s Hc Hs]; [done|]. simpl.
      destruct (Latin1_toupper_nonspace c Hc) as [Hn _].
      destruct (Latin1.toupper c); [done | discriminate].
    + clear Hne. induction Hs as [|c s Hc Hs IH]; simpl; [constructor|].
      apply Forall_app. split; [|exact IH].
      by apply Latin1_toupper_nonspace.
  - induction 1 as [|c s Hc Hs IH]; simpl; [constructor|].
    apply Forall_app. split; [|exact IH].
    by apply Latin1_tolower_nonspace.
Qed.

(** ** Tokens *)

Lemma split_tokens s : Forall is_token (split s).
Proof.
  induction s as [|c s IH]; simpl; [constructor|].
  destruct (is_space c) eqn:Hc; [done|].
  destruct s as [|c' s']; [by repeat constructor|].
  destruct (is_space c') eqn:Hc'.
  - constructor; [by repeat constructor | done].
  - destruct (split (c' :: s')) as [|t ts]; [by repeat constructor|].
    inversion IH as [|? ? [_ Ht] Hts]; subst.
    constructor; [|done]. split; [done | by constructor].
Qed.

Lemma split_space c s : is_space c = true -> split (c :: s) = split s.
Proof. intros H. simpl. by rewrite H. Qed.

Lemma split_token_app t w rest :
  is_token t -> is_space w = true -> split (t ++ w :: rest) = t :: split rest.
Proof.
  intros [Hne Ht] Hw. induction Ht as [|c t Hc Ht IH]; [done|].
  change ((c :: t) ++ w :: rest) with (c :: (t ++ w :: rest)).
  unfold nonspace in Hc.
  destruct t as [|c' t'].
  - simpl. by rewrite Hc, Hw.
  - specialize (IH ltac:(done)). inversion Ht as [|? ? Hc' _]; subst.
    unfold nonspace in Hc'.
    cbn [split app] in *. rewrite Hc, Hc'. rewrite Hc' in IH. by rewrite IH.
Qed.

Lemma split_token t : is_token t -> split t = [t].
Proof.
  intros [Hne Ht]. induction Ht as [|c t Hc Ht IH]; [done|].
  unfold nonspace in Hc. destruct t as [|c' t'].
  - simpl. by rewrite Hc.
  - specialize (IH ltac:(done)). inversion Ht as [|? ? Hc' _]; subst.
    unfold nonspace in Hc'.
    cbn [split] in *. rewrite Hc, Hc'. rewrite Hc' in IH. by rewrite IH.
Qed.

Lemma split_two t1 t2 :
  is_token t1 -> is_token t2 -> split (t1 ++ [SPACE] ++ t2) = [t1; t2].
Proof.
  intros H1 H2. simpl. rewrite split_token_app by done.
  by rewrite split_token.
Qed.

(** ** The loop *)

Section Scan.

Variable U : UCD.
Variable order : list str.

Lemma line_guess_spec line :
  line_guess U order line =
    if qualifies U order line then Some (first_two U (alpha_tokens U (normalize line)))
    else None.
Proof.
  unfold line_guess, qualifies, first_two.
  destruct (blocked U order (normalize line)); [done|].
  destruct (alpha_tokens U (normalize line)) as [|a [|b [|c r]]]; done.
Qed.

Lemma fallback_spec text :
  fallback U text =
    let words := alpha_tokens U (replace LF [SPACE] text) in
    if (2 <=? length words)%nat then first_two U words else [].
Proof.
  unfold fallback, first_two. cbn zeta.
  by destruct (2 <=? length _)%nat.
Qed.

Lemma scan_None lines :
  scan U order lines = None <-> Forall (fun l => qualifies U order l = false) lines.
Proof.
  induction lines as [|l ls IH]; simpl.
  - split; [constructor | done].
  - rewrite line_guess_spec. destruct (qualifies U order l) eqn:Hq.
    + split; [done|]. intros H. inversion H; congruence.
    + rewrite IH. split; [by constructor|]. intros H. by inversion H.
Qed.

Lemma scan_first pre line post :
  Forall (fun l => qualifies U order l = false) pre ->
  qualifies U order line = true ->
  scan U order (pre ++ line :: post) =
    Some (first_two U (alpha_tokens U (normalize line))).
Proof.
  intros Hpre Hq. induction Hpre as [|l ls Hl Hls IH]; simpl.
  - by rewrite line_guess_spec, Hq.
  - by rewrite line_guess_spec, Hl.
Qed.

Lemma scan_Some lines r :
  scan U order lines = Some r ->
  exists pre line post,
    lines = pre ++ line :: post
    /\ Forall (fun l => qualifies U order l = false) pre
    /\ qualifies U order line = true
    /\ r = first_two U (alpha_tokens U (normalize line)).
Proof.
  induction lines as [|l ls IH]; simpl; [done|].
  rewrite line_guess_spec. destruct (qualifies U order l) eqn:Hq.
  - intros [= <-]. exists [], l, ls. by repeat split.
  - intros H. destruct (IH H) as (pre & line & post & -> & Hpre & Hl & ->).
    exists (l :: pre), line, post. repeat split; [by constructor | done].
Qed.

End Scan.

(** ** On ASCII text the tables do not matter *)

Lemma ascii_check s : List.forallb (fun c => c <? 128) s = true -> Forall is_ascii s.
Proof.
  intros H. apply Forall_forall. intros c Hc.
  apply list_elem_of_In in Hc.
  rewrite forallb_forall in H. apply N.ltb_lt. by apply H.
Qed.

Lemma normalize_Forall (P : N -> Prop) line :
  Forall P line -> Forall P (normalize line).
Proof.
  intros H. unfold normalize. destruct (contains line [COLON]); [|done].
  by apply strip_Forall, last_Forall, split_colon_1_Forall.
Qed.

Section Agreement.

Variables U V : UCD.
Hypothesis HU : UCD_ok U.
Hypothesis HV : UCD_ok V.
Variable order : list str.

Lemma str_isalpha_ascii s :
  Forall is_ascii s -> str_isalpha U s = str_isalpha V s.
Proof using HU HV.
  intros H. unfold str_isalpha. f_equal.
  induction H as [|c s Hc Hs IH]; simpl; [done|].
  by rewrite IH, (isalpha_ascii U HU), (isalpha_ascii V HV).
Qed.

Lemma is_alpha_token_ascii t :
  Forall is_ascii t -> is_alpha_token U t = is_alpha_token V t.
Proof using HU HV.
  intros H. apply str_isalpha_ascii. by apply replace_Forall.
Qed.

Lemma alpha_tokens_ascii s :
  Forall is_ascii s -> alpha_tokens U s = alpha_tokens V s.
Proof using HU HV.
  intros H. unfold alpha_tokens.
  pose proof (split_Forall _ _ H) as Hs.
  induction Hs as [|t ts Ht Hts IH]; simpl; [done|].
  by rewrite IH, (is_alpha_token_ascii t Ht).
Qed.

Lemma alpha_tokens_Forall (P : N -> Prop) W s :
  Forall P s -> Forall (Forall P) (alpha_tokens W s).
Proof.
  intros H. unfold alpha_tokens.
  pose proof (split_Forall _ _ H) as Hs.
  induction Hs as [|t ts Ht Hts IH]; simpl; [constructor|].
  destruct (is_alpha_token W t); [by constructor | done].
Qed.

Lemma capitalize_ascii t :
  Forall is_ascii t -> capitalize U t = capitalize V t.
Proof using HU HV.
  intros H. unfold capitalize.
  rewrite (upper_ascii U HU), (upper_ascii V HV) by (by apply Forall_take).
  by rewrite (lower_ascii U HU), (lower_ascii V HV) by (by apply Forall_drop).
Qed.

Lemma first_two_ascii tokens :
  Forall (Forall is_ascii) tokens -> first_two U tokens = first_two V tokens.
Proof using HU HV.
  intros H. unfold first_two.
  assert (forall i, Forall is_ascii (nth i tokens [])) as Hn.
  { intros i. revert i. induction H as [|t ts Ht Hts IH]; intros [|i]; simpl;
      auto using Forall_nil. }
  by rewrite !(capitalize_ascii _ (Hn _)).
Qed.

Lemma blocked_ascii s :
  Forall is_ascii s -> blocked U order s = blocked V order s.
Proof using HU HV.
  intros H. unfold blocked.
  by rewrite (lower_ascii U HU), (lower_ascii V HV).
Qed.

Lemma qualifies_ascii line :
  Forall is_ascii line -> qualifies U order line = qualifies V order line.
Proof using HU HV.
  intros H. unfold qualifies.
  pose proof (normalize_Forall _ _ H) as Hn.
  by rewrite (blocked_ascii _ Hn), (alpha_tokens_ascii _ Hn).
Qed.

Lemma line_guess_ascii line :
  Forall is_ascii line -> line_guess U order line = line_guess V order line.
Proof using HU HV.
  intros H. rewrite !line_guess_spec, (qualifies_ascii _ H).
  pose proof (normalize_Forall _ _ H) as Hn.
  rewrite (alpha_tokens_ascii _ Hn).
  by rewrite (first_two_ascii _ (alpha_tokens_Forall _ V _ Hn)).
Qed.

Lemma scan_ascii lines :
  Forall (Forall is_ascii) lines -> scan U order lines = scan V order lines.
Proof using HU HV.
  induction 1 as [|l ls Hl Hls IH]; simpl; [done|].
  by rewrite (line_guess_ascii _ Hl), IH.
Qed.

Lemma candidate_lines_Forall (P : N -> Prop) text :
  Forall P text -> Forall (Forall P) (candidate_lines text).
Proof.
  intros H. unfold candidate_lines.
  pose proof (splitlines_Forall _ _ H) as Hs.
  induction Hs as [|l ls Hl Hls IH]; simpl; [constructor|].
  destruct (truthy (strip l) && _); [|done].
  constructor; [by apply strip_Forall | done].
Qed.

Lemma fallback_ascii text :
  Forall is_ascii text -> fallback U text = fallback V text.
Proof using HU HV.
  intros H. rewrite !fallback_spec. cbn zeta.
  assert (Forall is_ascii (replace LF [SPACE] text)) as Hr.
  { apply replace_Forall; [|done]. by repeat constructor. }
  rewrite (alpha_tokens_ascii _ Hr).
  by rewrite (first_two_ascii _ (alpha_tokens_Forall _ V _ Hr)).
Qed.

Lemma guess_with_ascii text :
  Forall is_ascii text -> guess_with U order text = guess_with V order text.
Proof using HU HV.
  intros H. unfold guess_with, line_scan.
  rewrite scan_ascii by (by apply Forall_take, candidate_lines_Forall).
  by rewrite (fallback_ascii _ H).
Qed.

End Agreement.

(** ** The first candidate line *)

Section FirstLine.

Variable U : UCD.
Variable order : list str.

Lemma guess_with_first_candidate text l rest r :
  candidate_lines text = l :: rest ->
  line_guess U order l = Some r ->
  guess_with U order text = r.
Proof.
  intros Hc Hl. unfold guess_with, line_scan. rewrite Hc. simpl.
  by rewrite Hl.
Qed.

Lemma candidate_lines_first_line text l rest :
  splitlines text = l :: rest ->
  truthy (strip l) = true ->
  (length (strip l) <= 60)%nat ->
  exists rest', candidate_lines text = strip l :: rest'.
Proof.
  intros Hs Ht Hl. unfold candidate_lines. rewrite Hs. simpl.
  rewrite Ht. apply Nat.leb_le in Hl. rewrite Hl. simpl. eauto.
Qed.

End FirstLine.

(** C2: when one of the first 20 candidate lines passes the blocklist
    check and has at least two alpha tokens, the result is the first two
    alpha tokens of the earliest such line, capitalised and joined by one
    space, whatever the lines after it are; a first line "JANE ANNE DOE"
    gives "Jane Anne". *)
Theorem guess_first_qualifying_line (U : UCD) (HU : UCD_ok U) :
  (forall text pre line post,
      firstn 20 (candidate_lines text) = pre ++ line :: post ->
      Forall (fun l => qualifies U skip_keywords l = false) pre ->
      qualifies U skip_keywords line = true ->
      guess_candidate_name U text
      = first_two U (alpha_tokens U (normalize line)))
  /\ (forall text rest,
         splitlines text = lit "JANE ANNE DOE" :: rest ->
         guess_candidate_name U text = lit "Jane Anne").
Proof.
  split.
  - intros text pre line post Hl Hpre Hq.
    unfold guess_candidate_name, guess_with, line_scan.
    by rewrite Hl, (scan_first _ _ _ _ _ Hpre Hq).
  - intros text rest Hs.
    destruct (candidate_lines_first_line text _ _ Hs) as [rest' Hc].
    { by vm_compute. }
    { vm_compute. lia. }
    apply (guess_with_first_candidate _ _ _ _ _ _ Hc).
    replace (strip (lit "JANE ANNE DOE")) with (lit "JANE ANNE DOE")
      by (by vm_compute).
    rewrite (line_guess_ascii U Latin1.ucd HU Latin1_ok)
      by (by apply ascii_check).
    by vm_compute.
Qed.

Lemma guess_first_qualifying_line_witness :
  guess_candidate_name Latin1.ucd
    (lit "Phone 123" ++ [LF] ++ lit "JANE ANNE DOE" ++ [LF] ++ lit "John Smith")
  = lit "Jane Anne"
  /\ guess_candidate_name Latin1.ucd (lit "JANE ANNE DOE" ++ [LF] ++ lit "x")
     = lit "Jane Anne".
Proof.
  destruct (guess_first_qualifying_line Latin1.ucd Latin1_ok) as [H1 H2].
  split.
  - rewrite (H1 _ [lit "Phone 123"] (lit "JANE ANNE DOE") [lit "John Smith"]).
    + by vm_compute.
    + by vm_compute.
    + repeat constructor.
    + by vm_compute.
  - apply (H2 _ [lit "x"]). by vm_compute.
Defined.

(** ** Capitalisation of ASCII tokens *)

Lemma capitalize_ascii_map (U : UCD) (HU : UCD_ok U) t :
  Forall is_ascii t ->
  capitalize U t
  = List.map ascii_upper (firstn 1 t) ++ List.map ascii_lower (skipn 1 t).
Proof.
  intros H. unfold capitalize.
  rewrite (upper_ascii U HU) by (by apply Forall_take).
  by rewrite (lower_ascii U HU) by (by apply Forall_drop).
Qed.

Lemma ascii_upper_hyphen c : ascii_upper c = HYPHEN <-> c = HYPHEN.
Proof.
  unfold ascii_upper. destruct (ascii_islower c) eqn:H; [|done].
  char_prop. unfold HYPHEN. lia.
Qed.

Lemma ascii_lower_hyphen c : ascii_lower c = HYPHEN <-> c = HYPHEN.
Proof.
  unfold ascii_lower. destruct (ascii_isupper c) eqn:H; [|done].
  char_prop. unfold HYPHEN. lia.
Qed.






(** ** The example with a label line *)

(** C5 as stated fails: on the first line of the example the keyword
    check is made on the text after the colon, which holds no keyword. *)
Lemma contact_line_not_blocked :
  ~ (guess_candidate_name Latin1.ucd contact_example = lit "John Smith"
     /\ blocked Latin1.ucd skip_keywords
          (normalize (lit "Contact: jane@example.com")) = true).
Proof. intros [_ H]. vm_compute in H. discriminate. Qed.

(** C5, amended: the example gives "John Smith"; its first line is
    reduced to "jane@example.com", which passes the keyword check and is
    skipped for having no alpha token; a "Contact:" label in front of two
    alpha tokens does not reject a line. *)
Theorem contact_example_guess (U : UCD) (HU : UCD_ok U) :
  guess_candidate_name U contact_example = lit "John Smith"
  /\ hd [] (candidate_lines contact_example) = lit "Contact: jane@example.com"
  /\ normalize (lit "Contact: jane@example.com") = lit "jane@example.com"
  /\ blocked U skip_keywords (lit "jane@example.com") = false
  /\ alpha_tokens U (lit "jane@example.com") = []
  /\ line_guess U skip_keywords (lit "Contact: Jane Doe") = Some (lit "Jane Doe").
Proof.
  split_and!.
  - unfold guess_candidate_name.
    rewrite (guess_with_ascii U Latin1.ucd HU Latin1_ok)
      by (by apply ascii_check).
    by vm_compute.
  - by vm_compute.
  - by vm_compute.
  - rewrite (blocked_ascii U Latin1.ucd HU Latin1_ok)
      by (by apply ascii_check).
    by vm_compute.
  - rewrite (alpha_tokens_ascii U Latin1.ucd HU Latin1_ok)
      by (by apply ascii_check).
    by vm_compute.
  - rewrite (line_guess_ascii U Latin1.ucd HU Latin1_ok)
      by (by apply ascii_check).
    by vm_compute.
Qed.

Lemma contact_example_guess_witness :
  guess_candidate_name Latin1.ucd contact_example = lit "John Smith".
Proof. exact (proj1 (contact_example_guess Latin1.ucd Latin1_ok)). Defined.

(** ** The order of the keyword set *)

Lemma existsb_Permutation {A} (f : A -> bool) l1 l2 :
  Permutation l1 l2 -> List.existsb f l1 = List.existsb f l2.
Proof.
  induction 1 as [|x l l' _ IH|x y l|l l' l'' _ IH1 _ IH2]; simpl.
  - done.
  - by rewrite IH.
  - by destruct (f x), (f y).
  - by rewrite IH1.
Qed.

Section Order.

Variable U : UCD.
Variables o1 o2 : list str.
Hypothesis Hperm : Permutation o1 o2.

Lemma blocked_Permutation s : blocked U o1 s = blocked U o2 s.
Proof using Hperm. unfold blocked. by apply existsb_Permutation. Qed.

Lemma line_guess_Permutation line :
  line_guess U o1 line = line_guess U o2 line.
Proof using Hperm. unfold line_guess. by rewrite blocked_Permutation. Qed.

Lemma scan_Permutation lines : scan U o1 lines = scan U o2 lines.
Proof using Hperm.
  induction lines as [|l ls IH]; simpl; [done|].
  by rewrite line_guess_Permutation, IH.
Qed.

Lemma guess_with_Permutation text : guess_with U o1 text = guess_with U o2 text.
Proof using Hperm.
  unfold guess_with, line_scan. by rewrite scan_Permutation.
Qed.

End Order.

(** C7: the result is a function of the text alone: two evaluations, each
    with its own iteration order of the keyword set, return the same
    string, the one [guess_candidate_name] denotes. *)
Theorem guess_deterministic (U : UCD) (text : str) (o1 o2 : list str) :
  Permutation o1 skip_keywords ->
  Permutation o2 skip_keywords ->
  guess_with U o1 text = guess_with U o2 text
  /\ guess_with U o1 text = guess_candidate_name U text.
Proof.
  intros H1 H2. split.
  - apply guess_with_Permutation. by rewrite H1, H2.
  - by apply guess_with_Permutation.
Qed.

Lemma guess_deterministic_witness :
  guess_with Latin1.ucd (rev skip_keywords) contact_example
  = guess_with Latin1.ucd skip_keywords contact_example.
Proof.
  apply (guess_deterministic Latin1.ucd contact_example
           (rev skip_keywords) skip_keywords).
  - symmetry. apply Permutation_rev.
  - reflexivity.
Defined.

(** ** The payload *)

(** C8: on a successful run the payload maps "text" to the extracted
    text, has "name" exactly when the guess is non-empty, then with the
    guess as its value, and has no other key. *)
Theorem main_payload (U : UCD) (path_exists : string -> bool)
    (read_pages : string -> string + list (option str))
    (argv : list string) (payload : gmap string str) :
  main U path_exists read_pages argv = Success payload ->
  exists text,
    extract_text read_pages (nth 1 argv ""%string) = inr text
    /\ payload !! "text"%string = Some text
    /\ (is_Some (payload !! "name"%string) <-> guess_candidate_name U text <> [])
    /\ (forall v, payload !! "name"%string = Some v ->
                  v = guess_candidate_name U text)
    /\ (forall k, k <> "text"%string -> k <> "name"%string -> payload !! k = None).
Proof.
  unfold main. destruct (length argv <? 2)%nat; [done|].
  destruct (negb _); [done|].
  destruct (extract_text read_pages _) as [exc|text]; [done|].
  intros [= <-]. exists text. split; [done|]. unfold build_payload.
  destruct (guess_candidate_name U text) as [|c g] eqn:Hg; simpl.
  - split_and!.
    + by rewrite lookup_singleton_eq.
    + rewrite lookup_singleton_ne by done. split; [by intros [? ?] | done].
    + intros v. by rewrite lookup_singleton_ne.
    + intros k Hk _. by rewrite lookup_singleton_ne.
  - split_and!.
    + rewrite lookup_insert_ne by done. by rewrite lookup_singleton_eq.
    + rewrite lookup_insert_eq. split; [done | by eexists].
    + intros v. rewrite lookup_insert_eq. by intros [= <-].
    + intros k Hk Hk'. rewrite lookup_insert_ne by done.
      by rewrite lookup_singleton_ne.
Qed.

Lemma main_payload_witness :
  exists text,
    extract_text (fun _ => inr [Some (lit "Jane Doe"); None])
      (nth 1 ["extract_cv.py"; "cv.pdf"]%string ""%string) = inr text
    /\ build_payload Latin1.ucd (lit "Jane Doe") !! "text"%string = Some text.
Proof.
  destruct (main_payload Latin1.ucd (fun _ => true)
              (fun _ => inr [Some (lit "Jane Doe"); None])
              ["extract_cv.py"; "cv.pdf"]%string
              (build_payload Latin1.ucd (lit "Jane Doe")))
    as (text & H1 & H2 & _).
  - reflexivity.
  - by exists text.
Defined.

(** ** Tokens made of hyphens *)

Lemma split_covers (P : N -> Prop) s :
  Forall (Forall P) (split s) ->
  Forall (fun c => P c \/ is_space c = true) s.
Proof.
  induction s as [|c s IH]; simpl; [constructor|].
  destruct (is_space c) eqn:Hc; [by constructor; auto|].
  destruct s as [|c' s'].
  - intros H. inversion H as [|? ? Ht _]; subst. inversion Ht; subst.
    constructor; auto.
  - destruct (is_space c') eqn:Hc'.
    + intros H. inversion H as [|? ? Ht Hts]; subst. inversion Ht; subst.
      constructor; auto.
    + destruct (split (c' :: s')) as [|t ts].
      * intros H. inversion H as [|? ? Ht _]; subst. inversion Ht; subst.
        constructor; auto.
      * intros H. inversion H as [|? ? Ht Hts]; subst. inversion Ht; subst.
        constructor; auto.
Qed.

Lemma hyphens_not_alpha (U : UCD) t :
  Forall (eq HYPHEN) t -> is_alpha_token U t = false.
Proof.
  intros H. unfold is_alpha_token.
  replace (replace HYPHEN [] t) with (@nil N); [done|].
  induction H as [|c t <- Ht IH]; simpl; [done|]. exact IH.
Qed.

Lemma alpha_tokens_hyphens (U : UCD) s :
  Forall (fun c => HYPHEN = c \/ is_space c = true) s -> alpha_tokens U s = [].
Proof.
  intros H. unfold alpha_tokens.
  pose proof (split_Forall _ _ H) as Hs. pose proof (split_tokens s) as Ht.
  induction Hs as [|t ts Hh Hts IH]; simpl; [done|].
  inversion Ht as [|? ? [_ Hn] Hts']; subst.
  rewrite hyphens_not_alpha; [by apply IH|].
  apply Forall_forall. intros c Hc.
  rewrite Forall_forall in Hh, Hn.
  destruct (Hh c Hc) as [?|Hsp]; [done|].
  specialize (Hn c Hc). unfold nonspace in Hn. congruence.
Qed.

(** C9: a token of hyphens only is not an alpha token, and a text whose
    tokens are all of that kind gives the empty string. *)
Theorem hyphen_runs_give_no_guess (U : UCD) :
  (forall t, Forall (eq HYPHEN) t -> is_alpha_token U t = false)
  /\ (forall text,
         Forall (Forall (eq HYPHEN)) (split text) ->
         guess_candidate_name U text = []).
Proof.
  split; [apply hyphens_not_alpha|].
  intros text H. apply split_covers in H.
  unfold guess_candidate_name, guess_with, line_scan.
  assert (scan U skip_keywords (firstn 20 (candidate_lines text)) = None) as ->.
  { apply scan_None, Forall_take.
    pose proof (candidate_lines_Forall _ _ H) as Hc.
    eapply Forall_impl; [exact Hc|]. intros l Hl. simpl in Hl.
    unfold qualifies.
    rewrite alpha_tokens_hyphens by (by apply normalize_Forall).
    by rewrite andb_false_r. }
  rewrite fallback_spec. cbn zeta.
  rewrite alpha_tokens_hyphens; [done|].
  apply replace_Forall; [|done]. constructor; [by right | constructor].
Qed.

Lemma hyphen_runs_give_no_guess_witness :
  is_alpha_token Latin1.ucd (lit "---") = false
  /\ guess_candidate_name Latin1.ucd (lit "-- - ---" ++ [LF] ++ lit "-") = [].
Proof.
  destruct (hyphen_runs_give_no_guess Latin1.ucd) as [H1 H2]. split.
  - apply H1. by repeat constructor.
  - apply H2. by repeat constructor.
Defined.

(** ** Lines with a colon *)

Lemma contains_char s c : contains s [c] = List.existsb (N.eqb c) s.
Proof.
  induction s as [|b s IH]; [done|].
  cbn [contains startswith List.existsb]. by rewrite IH, andb_true_r.
Qed.

Lemma contains_colon_In s : contains s [COLON] = true <-> COLON ∈ s.
Proof.
  rewrite contains_char, existsb_exists. split.
  - intros (x & Hx & Heq). apply N.eqb_eq in Heq as <-.
    by apply list_elem_of_In.
  - intros H. exists COLON. split; [by apply list_elem_of_In | apply N.eqb_refl].
Qed.

Lemma split_colon_1_first label rest :
  COLON ∉ label -> split_colon_1 (label ++ COLON :: rest) = [label; rest].
Proof.
  induction label as [|c label IH]; intros Hn; simpl; [done|].
  apply not_elem_of_cons in Hn as [Hc Hn].
  destruct (N.eqb_spec c COLON) as [-> | _]; [done|].
  by rewrite IH.
Qed.

Lemma normalize_colon label rest :
  COLON ∉ label -> normalize (label ++ COLON :: rest) = strip rest.
Proof.
  intros Hn. unfold normalize.
  replace (contains (label ++ COLON :: rest) [COLON]) with true.
  - by rewrite split_colon_1_first.
  - symmetry. apply contains_colon_In. set_solver.
Qed.



(** ** The first twenty candidate lines *)

Lemma candidates_filter (ls : list str) :
  List.map strip
    (List.filter
       (fun line => truthy (strip line) && (length (strip line) <=? 60)%nat) ls)
  = strip <$> filter (fun l => strip l <> [] /\ (length (strip l) <= 60)%nat) ls.
Proof.
  induction ls as [|l ls IH]; [done|].
  cbn [List.filter]. rewrite filter_cons.
  destruct (decide _) as [[Hne Hle]|Hn].
  - apply Nat.leb_le in Hle. rewrite Hle.
    destruct (strip l) eqn:Hl; [done|]. simpl. rewrite Hl. by f_equal.
  - destruct (truthy (strip l) && _) eqn:Hb; [|done].
    apply andb_true_iff in Hb as [Ht Hle]. apply Nat.leb_le in Hle.
    destruct Hn. split; [|done]. by destruct (strip l).
Qed.

Lemma Forall_check {A} (f : A -> bool) (l : list A) :
  List.forallb (fun x => negb (f x)) l = true -> Forall (fun x => f x = false) l.
Proof.
  intros H. apply Forall_forall. intros x Hx. apply list_elem_of_In in Hx.
  rewrite forallb_forall in H. apply negb_true_iff. by apply H.
Qed.

Lemma scan_Some_lookup (U : UCD) order lines r :
  scan U order lines = Some r ->
  exists i line,
    lines !! i = Some line
    /\ line_guess U order line = Some r
    /\ (forall j l, (j < i)%nat -> lines !! j = Some l ->
                    line_guess U order l = None).
Proof.
  induction lines as [|l ls IH]; simpl; [done|].
  destruct (line_guess U order l) as [r'|] eqn:Hl.
  - intros [= <-]. exists 0%nat, l. split_and!; [done..|]. intros; lia.
  - intros H. destruct (IH H) as (i & line & Hi & Hg & Hbefore).
    exists (S i), line. split_and!; [done..|].
    intros [|j] l' Hj Hl'; simpl in Hl'.
    + by injection Hl' as <-.
    + eapply Hbefore; [|done]. lia.
Qed.

(** C6: the candidate lines are the lines that are non-empty after
    trimming and then at most 60 characters long, trimmed, in their order;
    a line the scan returns from is one of the first 20 of them, and when
    none of those qualifies the result is that of the fallback, whatever
    the 21st and later candidate lines are. *)
Theorem line_scan_first_twenty (U : UCD) (HU : UCD_ok U) :
  (forall text,
      candidate_lines text
      = strip <$> filter (fun l => strip l <> [] /\ (length (strip l) <= 60)%nat)
                    (splitlines text))
  /\ (forall text r,
         line_scan U skip_keywords text = Some r ->
         exists i line,
           (i < 20)%nat
           /\ candidate_lines text !! i = Some line
           /\ line_guess U skip_keywords line = Some r
           /\ (forall j l, (j < i)%nat -> candidate_lines text !! j = Some l ->
                           line_guess U skip_keywords l = None))
  /\ (forall text,
         Forall (fun l => qualifies U skip_keywords l = false)
           (firstn 20 (candidate_lines text)) ->
         line_scan U skip_keywords text = None
         /\ guess_candidate_name U text = fallback U text)
  /\ (candidate_lines late_name_example !! 20%nat = Some (lit "Jane Doe")
      /\ line_guess U skip_keywords (lit "Jane Doe") = Some (lit "Jane Doe")
      /\ guess_candidate_name U late_name_example = lit "X X").
Proof.
  split_and!.
  - intros text. apply candidates_filter.
  - intros text r H. unfold line_scan in H.
    apply scan_Some_lookup in H as (i & line & Hi & Hg & Hbefore).
    assert (i < 20)%nat as Hlt.
    { apply lookup_lt_Some in Hi. rewrite length_take in Hi. lia. }
    exists i, line. split_and!; [done| |done|].
    + by rewrite lookup_take_lt in Hi.
    + intros j l Hj Hl. apply (Hbefore j); [done|].
      rewrite lookup_take_lt by lia. done.
  - intros text H. apply scan_None in H.
    unfold guess_candidate_name, guess_with, line_scan. by rewrite H.
  - by vm_compute.
  - rewrite (line_guess_ascii U Latin1.ucd HU Latin1_ok)
      by (by apply ascii_check).
    by vm_compute.
  - unfold guess_candidate_name.
    rewrite (guess_with_ascii U Latin1.ucd HU Latin1_ok)
      by (by apply ascii_check).
    by vm_compute.
Qed.

Lemma line_scan_first_twenty_witness :
  line_scan Latin1.ucd skip_keywords late_name_example = None
  /\ guess_candidate_name Latin1.ucd late_name_example
     = fallback Latin1.ucd late_name_example.
Proof.
  destruct (line_scan_first_twenty Latin1.ucd Latin1_ok) as (_ & _ & H & _).
  apply H. apply Forall_check. by vm_compute.
Defined.

(** ** The shape of the result *)

Lemma ascii_upper_ascii c : is_ascii c -> is_ascii (ascii_upper c).
Proof.
  unfold ascii_upper. destruct (ascii_islower c) eqn:H; [|done].
  intros Hc. char_prop. lia.
Qed.

Lemma ascii_lower_ascii c : is_ascii c -> is_ascii (ascii_lower c).
Proof.
  unfold ascii_lower. destruct (ascii_isupper c) eqn:H; [|done].
  intros Hc. char_prop. lia.
Qed.

Lemma ascii_upper_idem c : ascii_upper (ascii_upper c) = ascii_upper c.
Proof.
  unfold ascii_upper. destruct (ascii_islower c) eqn:H.
  - replace (ascii_islower (c - 32)) with false; [done|]. symmetry. char_cases.
  - by rewrite H.
Qed.

Lemma ascii_lower_idem c : ascii_lower (ascii_lower c) = ascii_lower c.
Proof.
  unfold ascii_lower. destruct (ascii_isupper c) eqn:H.
  - replace (ascii_isupper (c + 32)) with false; [done|]. symmetry. char_cases.
  - by rewrite H.
Qed.

Lemma ascii_upper_shape c :
  ascii_isalpha c = true \/ c = HYPHEN ->
  ascii_isupper (ascii_upper c) = true \/ ascii_upper c = HYPHEN.
Proof.
  unfold ascii_upper. destruct (ascii_islower c) eqn:H.
  - intros _. left. char_cases.
  - intros [Ha | ->]; [left | by right].
    unfold ascii_isalpha in Ha. by rewrite H, orb_false_r in Ha.
Qed.

Lemma ascii_lower_shape c :
  ascii_isalpha c = true \/ c = HYPHEN ->
  ascii_islower (ascii_lower c) = true \/ ascii_lower c = HYPHEN.
Proof.
  unfold ascii_lower. destruct (ascii_isupper c) eqn:H.
  - intros _. left. char_cases.
  - intros [Ha | ->]; [left | by right].
    unfold ascii_isalpha in Ha. by rewrite H in Ha.
Qed.

Section Shape.

Variable U : UCD.
Hypothesis HU : UCD_ok U.

Lemma capitalize_token a : is_token a -> is_token (capitalize U a).
Proof using HU.
  intros [Hne Ha]. destruct a as [|c r]; [done|].
  inversion Ha as [|? ? Hc Hr]; subst. unfold capitalize.
  change (firstn 1 (c :: r)) with [c]. change (skipn 1 (c :: r)) with r.
  destruct (upper_token U HU [c]) as [Hu1 Hu2]; [done | by constructor|].
  split.
  - destruct (upper U [c]); [done | discriminate].
  - apply Forall_app. split; [done|]. by apply (lower_token U HU).
Qed.

Lemma alpha_token_chars a :
  Forall is_ascii a -> is_alpha_token U a = true ->
  Forall (fun c => ascii_isalpha c = true \/ c = HYPHEN) a.
Proof using HU.
  unfold is_alpha_token, str_isalpha. intros Ha H.
  apply andb_true_iff in H as [_ H].
  induction Ha as [|c a Hc Ha IH]; [constructor|].
  simpl in H. destruct (N.eqb_spec c HYPHEN) as [-> | Hne]; simpl in H.
  - constructor; [by right | by apply IH].
  - apply andb_true_iff in H as [H1 H2].
    rewrite (isalpha_ascii U HU c Hc) in H1.
    constructor; [by left | by apply IH].
Qed.

Lemma capitalize_ascii_shape a :
  is_token a -> Forall is_ascii a -> is_alpha_token U a = true ->
  ascii_capitalized (capitalize U a) /\ capitalized U (capitalize U a).
Proof using HU.
  intros [Hne _] Ha Halpha.
  pose proof (alpha_token_chars a Ha Halpha) as Hch.
  rewrite (capitalize_ascii_map U HU a Ha).
  destruct a as [|c r]; [done|].
  change (firstn 1 (c :: r)) with [c]. change (skipn 1 (c :: r)) with r.
  inversion Ha as [|? ? Hc Hr]; subst.
  inversion Hch as [|? ? Hcc Hrr]; subst.
  cbn [List.map app]. split.
  - split; [by apply ascii_upper_shape|].
    clear -Hrr. induction Hrr as [|d r Hd Hr IH]; simpl; constructor;
      [by apply ascii_lower_shape | done].
  - unfold capitalized.
    change (firstn 1 (ascii_upper c :: List.map ascii_lower r))
      with [ascii_upper c].
    change (skipn 1 (ascii_upper c :: List.map ascii_lower r))
      with (List.map ascii_lower r).
    split.
    + rewrite (upper_ascii U HU)
        by (constructor; [by apply ascii_upper_ascii | constructor]).
      simpl. by rewrite ascii_upper_idem.
    + rewrite (lower_ascii U HU).
      * rewrite List.map_map. apply List.map_ext. intros d. apply ascii_lower_idem.
      * clear -Hr. induction Hr; simpl; constructor;
          [by apply ascii_lower_ascii | done].
Qed.

Lemma alpha_tokens_are_tokens s :
  Forall (fun t => is_token t /\ is_alpha_token U t = true) (alpha_tokens U s).
Proof.
  unfold alpha_tokens. pose proof (split_tokens s) as H.
  induction H as [|t ts Ht Hts IH]; simpl; [constructor|].
  destruct (is_alpha_token U t) eqn:Ha; [by constructor | done].
Qed.

(** Where the two tokens of a non-empty result come from: a string cut
    out of the text, or the text with its newlines turned into spaces. *)
Lemma guess_source order text :
  guess_with U order text = []
  \/ exists s,
      (forall P : N -> Prop, P SPACE -> Forall P text -> Forall P s)
      /\ (2 <= length (alpha_tokens U s))%nat
      /\ guess_with U order text = first_two U (alpha_tokens U s).
Proof.
  unfold guess_with, line_scan.
  destruct (scan U order (firstn 20 (candidate_lines text))) as [r|] eqn:Hs.
  - right. apply scan_Some in Hs as (pre & line & post & Hl & _ & Hq & ->).
    exists (normalize line). split_and!; [|by unfold qualifies in Hq;
      apply andb_true_iff in Hq as [_ Hq]; apply Nat.leb_le in Hq | done].
    intros P _ HP. apply normalize_Forall.
    pose proof (candidate_lines_Forall P text HP) as Hc.
    assert (Forall (Forall P) (pre ++ line :: post)) as Hc'
      by (rewrite <- Hl; by apply Forall_take).
    apply Forall_app in Hc' as [_ Hc']. by inversion Hc'.
  - rewrite fallback_spec. cbn zeta.
    destruct (2 <=? length _)%nat eqn:Hn; [right | by left].
    exists (replace LF [SPACE] text). split_and!; [|by apply Nat.leb_le | done].
    intros P HS HP. apply replace_Forall; [by repeat constructor | done].
Qed.

End Shape.

(** C1 as stated fails: with the sharp s, which upper-cases to "SS", the
    first token of the result is "SSa", whose remainder is not lower case. *)
Lemma sharp_s_result_not_capitalized :
  ~ name_guess Latin1.ucd
      (guess_candidate_name Latin1.ucd [223; 97; 32; 98; 99]).
Proof.
  replace (guess_candidate_name Latin1.ucd [223; 97; 32; 98; 99])
    with [83; 83; 97; 32; 66; 99] by (by vm_compute).
  intros [H | (t1 & t2 & Heq & _ & _ & [_ Hlow] & _)]; [discriminate|].
  destruct t1 as [|x1 [|x2 t1]]; simpl in Heq;
    injection Heq as ?; subst; discriminate.
Qed.

(** C1, amended: the function is total; its result is empty or consists
    of exactly two tokens with one space between them, each the
    capitalisation (upper-cased first character, lower-cased remainder) of
    an alpha token; a token of ASCII characters comes out as an upper-case
    letter or hyphen followed by lower-case letters and hyphens, so on
    ASCII text the result is a name guess. *)
Theorem guess_two_tokens (U : UCD) (HU : UCD_ok U) :
  (forall text,
      guess_candidate_name U text = []
      \/ exists a b,
          is_token a /\ is_token b
          /\ is_alpha_token U a = true /\ is_alpha_token U b = true
          /\ guess_candidate_name U text
             = capitalize U a ++ [SPACE] ++ capitalize U b
          /\ split (guess_candidate_name U text)
             = [capitalize U a; capitalize U b]
          /\ (Forall is_ascii a -> ascii_capitalized (capitalize U a))
          /\ (Forall is_ascii b -> ascii_capitalized (capitalize U b)))
  /\ (forall text,
         Forall is_ascii text -> name_guess U (guess_candidate_name U text)).
Proof.
  assert (forall text,
    guess_candidate_name U text = []
    \/ exists a b,
        (forall P : N -> Prop, P SPACE -> Forall P text -> Forall P a /\ Forall P b)
        /\ (is_token a /\ is_alpha_token U a = true)
        /\ (is_token b /\ is_alpha_token U b = true)
        /\ guess_candidate_name U text
           = capitalize U a ++ [SPACE] ++ capitalize U b) as Hcore.
  { intros text. unfold guess_candidate_name.
    destruct (guess_source U skip_keywords text) as [?|(s & HP & Hlen & ->)];
      [by left | right].
    pose proof (alpha_tokens_are_tokens U s) as Ht.
    destruct (alpha_tokens U s) as [|a [|b ts]] eqn:Hs; simpl in Hlen; try lia.
    exists a, b. inversion Ht as [|? ? [Ta Aa] Ht']; subst.
    inversion Ht' as [|? ? [Tb Ab] _]; subst. split_and!; try done.
    intros P HS Htext. specialize (HP P HS Htext).
    pose proof (alpha_tokens_Forall P U s HP) as HF.
    rewrite Hs in HF. inversion HF as [|? ? Hpa HF']; subst.
    by inversion HF'; subst. }
  split.
  - intros text. destruct (Hcore text) as [?|(a & b & _ & [Ta Aa] & [Tb Ab] & Heq)];
      [by left | right].
    exists a, b. split_and!; try done.
    + rewrite Heq. apply split_two; by apply capitalize_token.
    + intros Ha. by apply (capitalize_ascii_shape U HU).
    + intros Hb. by apply (capitalize_ascii_shape U HU).
  - intros text Htext.
    destruct (Hcore text) as [?|(a & b & HP & [Ta Aa] & [Tb Ab] & Heq)];
      [by left | right].
    destruct (HP is_ascii) as [Ha Hb]; [done | done |].
    exists (capitalize U a), (capitalize U b).
    split_and!; [done | by apply capitalize_token | by apply capitalize_token
                | by apply (capitalize_ascii_shape U HU)
                | by apply (capitalize_ascii_shape U HU)].
Qed.

Lemma guess_two_tokens_witness :
  name_guess Latin1.ucd (guess_candidate_name Latin1.ucd (lit "mARY-jane o-NEIL")).
Proof.
  apply (proj2 (guess_two_tokens Latin1.ucd Latin1_ok)).
  by apply ascii_check.
Defined.

(** ** Tokens of a line are tokens of the document *)

Lemma split_nonspace_cons c s : is_space c = false -> split (c :: s) <> [].
Proof.
  intros H. simpl. rewrite H. destruct s as [|c' s']; [done|].
  destruct (is_space c'); [done|]. by destruct (split (c' :: s')).
Qed.

Lemma split_app_space a w b :
  is_space w = true -> split (a ++ w :: b) = split a ++ split b.
Proof.
  intros Hw. induction a as [|c a IH]; [by apply split_space|].
  destruct (is_space c) eqn:Hc.
  - change ((c :: a) ++ w :: b) with (c :: (a ++ w :: b)).
    by rewrite !split_space.
  - destruct a as [|c' a'].
    + simpl. by rewrite Hc, Hw.
    + change ((c :: c' :: a') ++ w :: b) with (c :: c' :: (a' ++ w :: b)).
      change ((c' :: a') ++ w :: b) with (c' :: (a' ++ w :: b)) in IH.
      cbn [split]. cbn [split] in IH. rewrite Hc.
      destruct (is_space c') eqn:Hc'.
      * by rewrite IH.
      * rewrite IH. pose proof (split_nonspace_cons c' a' Hc') as Hne.
        cbn [split] in Hne. rewrite Hc' in Hne.
        by destruct (match a' with [] => _ | _ => _ end).
Qed.

Lemma split_spaces ws : Forall (fun c => is_space c = true) ws -> split ws = [].
Proof.
  induction 1 as [|w ws Hw Hws IH]; [done|]. by rewrite split_space.
Qed.

Lemma split_app_spaces a ws :
  Forall (fun c => is_space c = true) ws -> split (a ++ ws) = split a.
Proof.
  intros [|w ws' Hw Hws].
  - by rewrite app_nil_r.
  - rewrite split_app_space by done. rewrite (split_spaces ws') by done.
    apply app_nil_r.
Qed.

Lemma lstrip_spaces s :
  exists ws, Forall (fun c => is_space c = true) ws /\ s = ws ++ lstrip s.
Proof.
  induction s as [|c s (ws & Hws & Hs)]; [by exists []|].
  simpl. destruct (is_space c) eqn:Hc.
  - exists (c :: ws). split; [by constructor | by rewrite Hs at 1].
  - by exists [].
Qed.

Lemma split_lstrip s : split (lstrip s) = split s.
Proof.
  induction s as [|c s IH]; [done|]. cbn [lstrip].
  destruct (is_space c) eqn:Hc; [|done]. by rewrite split_space.
Qed.

Lemma split_rstrip s : split (rstrip s) = split s.
Proof.
  unfold rstrip. destruct (lstrip_spaces (rev s)) as (ws & Hws & Hs).
  assert (s = rev (lstrip (rev s)) ++ rev ws) as Heq.
  { rewrite <- rev_app_distr, <- Hs. by rewrite rev_involutive. }
  rewrite Heq at 2. symmetry. apply split_app_spaces. by apply Forall_rev.
Qed.

Lemma split_strip s : split (strip s) = split s.
Proof. unfold strip. by rewrite split_rstrip, split_lstrip. Qed.

Lemma split_replace_newline s : split (replace LF [SPACE] s) = split s.
Proof.
  induction s as [|c s IH]; [done|].
  change (replace LF [SPACE] (c :: s))
    with ((if c =? LF then [SPACE] else [c]) ++ replace LF [SPACE] s).
  destruct (N.eqb_spec c LF) as [-> | Hc].
  - change ([SPACE] ++ replace LF [SPACE] s) with (SPACE :: replace LF [SPACE] s).
    by rewrite !split_space.
  - change ([c] ++ replace LF [SPACE] s) with (c :: replace LF [SPACE] s).
    destruct (is_space c) eqn:Hsp; [by rewrite !split_space|].
    destruct s as [|c' s']; [done|].
    change (replace LF [SPACE] (c' :: s'))
      with ((if c' =? LF then [SPACE] else [c']) ++ replace LF [SPACE] s') in *.
    destruct (N.eqb_spec c' LF) as [-> | Hc'].
    + change ([SPACE] ++ replace LF [SPACE] s')
        with (SPACE :: replace LF [SPACE] s') in *.
      rewrite !split_space in IH by done.
      cbn [split]. rewrite Hsp.
      change (is_space SPACE) with true. change (is_space LF) with true.
      cbn iota. by rewrite IH.
    + change ([c'] ++ replace LF [SPACE] s')
        with (c' :: replace LF [SPACE] s') in *.
      cbn [split] in *. rewrite Hsp. by rewrite IH.
Qed.

(** The tokens after the first one stay tokens when text is put in front. *)
Lemma split_tail_cons c s : tail (split s) ⊆ tail (split (c :: s)).
Proof.
  destruct (is_space c) eqn:Hc; [by rewrite split_space|].
  cbn [split]. rewrite Hc. destruct s as [|c' s']; [done|].
  destruct (is_space c') eqn:Hc'.
  - cbn [tail]. destruct (split (c' :: s')); [done|]. set_solver.
  - cbn [split]. rewrite Hc'.
    by destruct (match s' with [] => _ | _ => _ end).
Qed.

Lemma split_tail_app p s : tail (split s) ⊆ split (p ++ s).
Proof.
  assert (tail (split s) ⊆ tail (split (p ++ s))) as H.
  { induction p as [|c p IH]; [done|].
    etrans; [exact IH|]. apply split_tail_cons. }
  etrans; [exact H|]. destruct (split (p ++ s)); [done|]. set_solver.
Qed.

Lemma splitlines_line l b rest :
  Forall (fun c => is_linebreak c = false) l ->
  is_linebreak b = true ->
  splitlines (l ++ b :: rest) = l :: splitlines (after_break b rest).
Proof.
  intros Hl Hb. induction Hl as [|c l Hc Hl IH].
  - by apply splitlines_break.
  - change ((c :: l) ++ b :: rest) with (c :: (l ++ b :: rest)).
    by rewrite splitlines_char, IH.
Qed.

Lemma splitlines_single s :
  Forall (fun c => is_linebreak c = false) s -> s <> [] -> splitlines s = [s].
Proof.
  induction 1 as [|c s Hc Hs IH]; [done|]. intros _.
  rewrite splitlines_char by done.
  destruct s as [|c' s']; [done|]. by rewrite IH.
Qed.

Lemma first_break s :
  Forall (fun c => is_linebreak c = false) s
  \/ exists l b rest,
      s = l ++ b :: rest
      /\ Forall (fun c => is_linebreak c = false) l
      /\ is_linebreak b = true.
Proof.
  induction s as [|c s IH]; [by left|].
  destruct (is_linebreak c) eqn:Hc.
  - right. by exists [], c, s.
  - destruct IH as [H|(l & b & rest & -> & Hl & Hb)].
    + left. by constructor.
    + right. exists (c :: l), b, rest. split_and!; [done | by constructor | done].
Qed.

Lemma split_after_break b rest :
  is_linebreak b = true -> split (after_break b rest) = split rest.
Proof.
  intros Hb. destruct rest as [|c' rest']; [done|]. simpl after_break.
  destruct ((b =? CR) && (c' =? LF)) eqn:H; [|done].
  apply andb_true_iff in H as [_ H]. apply N.eqb_eq in H as ->.
  by rewrite split_space.
Qed.

(** Line boundaries are whitespace: splitting the lines one by one gives
    the tokens of the whole text. *)
Lemma split_splitlines s : split s = concat (List.map split (splitlines s)).
Proof.
  induction s as [s IH] using length_ind.
  destruct (first_break s) as [H|(l & b & rest & -> & Hl & Hb)].
  - destruct s as [|c s']; [done|].
    rewrite splitlines_single by done. simpl. by rewrite app_nil_r.
  - rewrite splitlines_line by done.
    rewrite split_app_space by (by apply linebreak_is_space).
    cbn [List.map concat]. f_equal.
    rewrite <- IH; [by rewrite split_after_break|].
    pose proof (after_break_length b rest). rewrite length_app. simpl. lia.
Qed.

Lemma split_line_subseteq text l : l ∈ splitlines text -> split l ⊆ split text.
Proof.
  intros Hl t Ht. rewrite (split_splitlines text).
  apply list_elem_of_In, in_concat. exists (split l).
  split; [|by apply list_elem_of_In].
  apply in_map. by apply list_elem_of_In.
Qed.

Lemma candidate_lines_elem text cl :
  cl ∈ candidate_lines text -> exists l, l ∈ splitlines text /\ cl = strip l.
Proof.
  unfold candidate_lines. intros H.
  apply list_elem_of_In, in_map_iff in H as (l & <- & Hl).
  apply filter_In in Hl as [Hl _]. exists l.
  split; [by apply list_elem_of_In | done].
Qed.

Lemma filter_tail_length {A} (f : A -> bool) (l : list A) :
  (forall x, x ∈ tail l -> f x = false) -> (length (List.filter f l) <= 1)%nat.
Proof.
  intros H. destruct l as [|x l]; simpl; [lia|].
  assert (List.filter f l = []) as ->.
  { simpl in H. induction l as [|y l IH]; simpl; [done|].
    rewrite H by set_solver. apply IH. intros z Hz. apply H. set_solver. }
  destruct (f x); simpl; lia.
Qed.

Lemma filter_nil_elem {A} (f : A -> bool) (l : list A) x :
  List.filter f l = [] -> x ∈ l -> f x = false.
Proof.
  intros H Hx. destruct (f x) eqn:Hf; [|done].
  assert (In x (List.filter f l)) as Hin.
  { apply filter_In. split; [by apply list_elem_of_In | done]. }
  rewrite H in Hin. destruct Hin.
Qed.

(** Without an alpha token in the whole text no line has two of them:
    cutting a line at its colon makes at most its first token alphabetic. *)
Lemma no_alpha_token_no_line (U : UCD) order text cl :
  List.filter (is_alpha_token U) (split text) = [] ->
  cl ∈ candidate_lines text ->
  qualifies U order cl = false.
Proof.
  intros Hnone Hcl.
  apply candidate_lines_elem in Hcl as (l & Hl & ->).
  assert (forall t, t ∈ split (strip l) -> is_alpha_token U t = false) as Hno.
  { intros t Ht. apply (filter_nil_elem _ _ _ Hnone).
    apply (split_line_subseteq text l Hl). by rewrite split_strip in Ht. }
  unfold qualifies.
  assert (length (alpha_tokens U (normalize (strip l))) <= 1)%nat as Hlen.
  { unfold alpha_tokens. apply filter_tail_length. intros t Ht.
    destruct (contains (strip l) [COLON]) eqn:Hc.
    - apply contains_colon_In, list_elem_of_split_l in Hc
        as (label & rest & Heq & Hn).
      rewrite Heq, normalize_colon, split_strip in Ht by done.
      apply Hno. rewrite Heq.
      change (label ++ COLON :: rest) with (label ++ [COLON] ++ rest).
      rewrite app_assoc. by apply split_tail_app.
    - unfold normalize in Ht. rewrite Hc in Ht. apply Hno.
      destruct (split (strip l)); [done | set_solver]. }
  replace (2 <=? _)%nat with false; [by rewrite andb_false_r|].
  symmetry. apply Nat.leb_gt. lia.
Qed.

(** C3: when none of the first 20 candidate lines qualifies, the result
    comes from the whole text with newlines turned into spaces: the first
    two alpha tokens of its split, capitalised and joined by a space, or the
    empty string when there are fewer than two; the empty text and a text
    without any alpha token give the empty string. *)
Theorem fallback_first_two_words (U : UCD) :
  (forall text,
      Forall (fun l => qualifies U skip_keywords l = false)
        (firstn 20 (candidate_lines text)) ->
      let words :=
        List.filter (is_alpha_token U) (split (replace LF [SPACE] text)) in
      ((2 <= length words)%nat ->
       guess_candidate_name U text
       = capitalize U (nth 0 words []) ++ [SPACE] ++ capitalize U (nth 1 words []))
      /\ ((length words < 2)%nat -> guess_candidate_name U text = []))
  /\ guess_candidate_name U [] = []
  /\ (forall text,
         List.filter (is_alpha_token U) (split (replace LF [SPACE] text)) = [] ->
         guess_candidate_name U text = []).
Proof.
  assert (forall text,
    Forall (fun l => qualifies U skip_keywords l = false)
      (firstn 20 (candidate_lines text)) ->
    guess_candidate_name U text = fallback U text) as Hfb.
  { intros text H. apply scan_None in H.
    unfold guess_candidate_name, guess_with, line_scan. by rewrite H. }
  split_and!.
  - intros text H words. subst words.
    rewrite (Hfb text H), fallback_spec. cbn zeta.
    unfold alpha_tokens, first_two. split.
    + intros Hlen. apply Nat.leb_le in Hlen. by rewrite Hlen.
    + intros Hlen. apply Nat.leb_gt in Hlen. by rewrite Hlen.
  - reflexivity.
  - intros text Hnone. rewrite Hfb.
    + rewrite fallback_spec. cbn zeta. unfold alpha_tokens. by rewrite Hnone.
    + apply Forall_take, Forall_forall. intros cl Hcl.
      apply (no_alpha_token_no_line U skip_keywords text cl); [|done].
      by rewrite <- split_replace_newline.
Qed.

Lemma fallback_first_two_words_witness :
  guess_candidate_name Latin1.ucd (lit "maria 2024" ++ [LF] ++ lit "LOPEZ")
  = lit "Maria Lopez"
  /\ guess_candidate_name Latin1.ucd (lit "x:y 12 3.4 @" ++ [LF] ++ lit "+1 555")
     = [].
Proof.
  destruct (fallback_first_two_words Latin1.ucd) as (H1 & _ & H3). split.
  - destruct (H1 (lit "maria 2024" ++ [LF] ++ lit "LOPEZ")) as [H _].
    + apply Forall_check. by vm_compute.
    + rewrite H; [by vm_compute | vm_compute; lia].
  - apply H3. by vm_compute.
Defined.

(** * Further properties *)

(** ** What strip leaves *)

Lemma lstrip_head s c r : lstrip s = c :: r -> nonspace c.
Proof.
  induction s as [|d s IH]; simpl; [done|].
  destruct (is_space d) eqn:Hd; [done|]. by intros [= <- <-].
Qed.

Lemma lstrip_nonspace_head c r : nonspace c -> lstrip (c :: r) = c :: r.
Proof. intros H. simpl. unfold nonspace in H. by rewrite H. Qed.

Lemma lstrip_all_spaces ws :
  Forall (fun c => is_space c = true) ws -> lstrip ws = [].
Proof. induction 1 as [|w ws Hw _ IH]; simpl; [done|]. by rewrite Hw. Qed.

Lemma lstrip_spaces_app ws s :
  Forall (fun c => is_space c = true) ws -> lstrip (ws ++ s) = lstrip s.
Proof. induction 1 as [|w ws Hw _ IH]; simpl; [done|]. by rewrite Hw. Qed.

Lemma lstrip_idem s : lstrip (lstrip s) = lstrip s.
Proof.
  destruct (lstrip s) as [|c r] eqn:H; [done|].
  apply lstrip_nonspace_head. by apply (lstrip_head s c r).
Qed.

Lemma rstrip_spaces s :
  exists ws, Forall (fun c => is_space c = true) ws /\ s = rstrip s ++ ws.
Proof.
  unfold rstrip. destruct (lstrip_spaces (rev s)) as (ws & Hws & Hs).
  exists (rev ws). split; [by apply Forall_rev|].
  rewrite <- rev_app_distr, <- Hs. by rewrite rev_involutive.
Qed.

Lemma rstrip_last s init c : rstrip s = init ++ [c] -> nonspace c.
Proof.
  unfold rstrip. intros H. apply (f_equal (@rev N)) in H.
  rewrite rev_involutive, rev_app_distr in H. simpl in H.
  by apply lstrip_head in H.
Qed.

Lemma rstrip_app_spaces s ws :
  Forall (fun c => is_space c = true) ws -> rstrip (s ++ ws) = rstrip s.
Proof.
  intros H. unfold rstrip. rewrite rev_app_distr.
  by rewrite lstrip_spaces_app by (by apply Forall_rev).
Qed.

Lemma rstrip_nonspace_last init c : nonspace c -> rstrip (init ++ [c]) = init ++ [c].
Proof.
  intros H. unfold rstrip. rewrite rev_app_distr.
  change (rev [c] ++ rev init) with (c :: rev init).
  rewrite lstrip_nonspace_head by done.
  change (c :: rev init) with ([c] ++ rev init).
  by rewrite rev_app_distr, rev_involutive.
Qed.

Lemma rstrip_idem s : rstrip (rstrip s) = rstrip s.
Proof.
  remember (rstrip s) as t eqn:H.
  destruct t as [|c r _] using rev_ind; [done|].
  apply rstrip_nonspace_last. by apply (rstrip_last s r c).
Qed.

Lemma rstrip_head s c : rstrip (c :: s) = [] \/ exists r, rstrip (c :: s) = c :: r.
Proof.
  destruct (rstrip_spaces (c :: s)) as (ws & Hws & Heq).
  destruct (rstrip (c :: s)) as [|d r']; [by left|].
  right. injection Heq as ->. by exists r'.
Qed.

Lemma strip_head s c r : strip s = c :: r -> nonspace c.
Proof.
  unfold strip. destruct (lstrip s) as [|d t] eqn:Hl; [done|].
  intros H. destruct (rstrip_head t d) as [H0|[r' Hr]]; [congruence|].
  rewrite Hr in H. injection H as <- _. by apply (lstrip_head s d t).
Qed.

Lemma strip_last s init c : strip s = init ++ [c] -> nonspace c.
Proof. unfold strip. apply rstrip_last. Qed.

Lemma strip_idem s : strip (strip s) = strip s.
Proof.
  assert (lstrip (strip s) = strip s) as Hl.
  { destruct (strip s) as [|c r] eqn:H; [done|].
    apply lstrip_nonspace_head. by apply (strip_head s c r). }
  unfold strip at 1. rewrite Hl. unfold strip. apply rstrip_idem.
Qed.

Lemma strip_all_spaces ws :
  Forall (fun c => is_space c = true) ws -> strip ws = [].
Proof. intros H. unfold strip. by rewrite lstrip_all_spaces. Qed.

(** ** The extracted text *)

(** X2: the text [extract_text] returns is trimmed: stripping it again changes
    nothing, and it neither starts nor ends with a whitespace character. *)
Theorem extracted_text_is_stripped
    (rp : string -> string + list (option str)) (path : string) (text : str) :
  extract_text rp path = inr text ->
  strip text = text
  /\ (forall c r, text = c :: r -> nonspace c)
  /\ (forall init c, text = init ++ [c] -> nonspace c).
Proof.
  unfold extract_text. destruct (rp path) as [exc|pages]; [done|].
  intros [= <-]. split_and!.
  - apply strip_idem.
  - intros c r. apply strip_head.
  - intros init c. apply strip_last.
Qed.

Lemma extracted_text_is_stripped_witness :
  strip (lit "Jane Doe" ++ [LF] ++ lit "Engineer") = lit "Jane Doe" ++ [LF] ++ lit "Engineer".
Proof.
  apply (extracted_text_is_stripped
           (fun _ => inr [Some (lit "  Jane Doe"); Some (lit "Engineer "); None])
           "cv.pdf"%string).
  reflexivity.
Defined.

Lemma join_spaces chunks :
  Forall (Forall (fun c => is_space c = true)) chunks ->
  Forall (fun c => is_space c = true) (join [LF] chunks).
Proof.
  induction 1 as [|p ps Hp Hps IH]; [constructor|].
  destruct ps as [|q ps]; [done|].
  change (join [LF] (p :: q :: ps)) with (p ++ [LF] ++ join [LF] (q :: ps)).
  apply Forall_app. split; [done|]. by constructor.
Qed.

(** X3: a document whose pages give no text, or only whitespace, succeeds
    with the payload that has the empty text and no name. *)
Theorem blank_document_payload (U : UCD) (pe : string -> bool)
    (rp : string -> string + list (option str))
    (prog path : string) (extra : list string) (pages : list (option str)) :
  pe path = true ->
  rp path = inr pages ->
  Forall (fun page => Forall (fun c => is_space c = true) (default [] page)) pages ->
  main U pe rp (prog :: path :: extra) = Success {[ "text"%string := [] ]}.
Proof.
  intros H1 H2 Hblank. unfold main, extract_text. simpl. rewrite H1, H2. simpl.
  rewrite strip_all_spaces; [done|].
  apply join_spaces. by apply Forall_map.
Qed.

Lemma blank_document_payload_witness :
  main Latin1.ucd (fun _ => true) (fun _ => inr [None; Some (lit "  "); Some []])
    ["extract_cv.py"; "scan.pdf"]%string
  = Success {[ "text"%string := [] ]}.
Proof.
  apply (blank_document_payload _ _ _ _ _ _ [None; Some (lit "  "); Some []]);
    [done | done |].
  repeat constructor.
Defined.

Lemma split_join chunks :
  split (join [LF] chunks) = concat (List.map split chunks).
Proof.
  induction chunks as [|p ps IH]; [done|].
  destruct ps as [|q ps]; [simpl; by rewrite app_nil_r|].
  change (join [LF] (p :: q :: ps)) with (p ++ LF :: join [LF] (q :: ps)).
  rewrite split_app_space by done. by rewrite IH.
Qed.

Lemma filter_concat {A} (f : A -> bool) (ls : list (list A)) :
  List.filter f (concat ls) = concat (List.map (List.filter f) ls).
Proof.
  induction ls as [|l ls IH]; simpl; [done|].
  by rewrite List.filter_app, IH.
Qed.

(** X4: a page boundary separates tokens: the tokens of the extracted text are
    those of the pages, page after page, and so are the words the fallback
    chooses from. *)
Theorem extracted_text_tokens (U : UCD)
    (rp : string -> string + list (option str)) (path : string)
    (pages : list (option str)) :
  rp path = inr pages ->
  exists text,
    extract_text rp path = inr text
    /\ split text = concat (List.map (fun page => split (default [] page)) pages)
    /\ alpha_tokens U (replace LF [SPACE] text)
       = concat (List.map (fun page => alpha_tokens U (default [] page)) pages).
Proof.
  intros H. unfold extract_text. rewrite H. eexists. split; [done|].
  assert (split (strip (join [LF] (List.map (fun e => default [] e) pages)))
          = concat (List.map (fun page => split (default [] page)) pages)) as Hs.
  { by rewrite split_strip, split_join, List.map_map. }
  split; [done|].
  unfold alpha_tokens. rewrite split_replace_newline, Hs, filter_concat.
  by rewrite List.map_map.
Qed.

Lemma extracted_text_tokens_witness :
  exists text,
    extract_text (fun _ => inr [Some (lit "Curriculum Vitae "); None; Some (lit "Jane")])
      "cv.pdf"%string = inr text
    /\ split text = [lit "Curriculum"; lit "Vitae"; lit "Jane"].
Proof.
  destruct (extracted_text_tokens Latin1.ucd
              (fun _ => inr [Some (lit "Curriculum Vitae "); None; Some (lit "Jane")])
              "cv.pdf"%string _ eq_refl) as (text & H1 & H2 & _).
  by exists text.
Defined.

(** ** The keyword check is a substring test *)

Lemma startswith_spec s p : startswith s p = true <-> exists q, s = p ++ q.
Proof.
  revert s. induction p as [|a p IH]; intros s; simpl.
  - split; [by exists s | done].
  - destruct s as [|b s].
    + split; [done | by intros [q ?]].
    + rewrite andb_true_iff, N.eqb_eq, IH. split.
      * intros [-> [q ->]]. by exists q.
      * intros [q [= -> ->]]. split; [done | by exists q].
Qed.

Lemma contains_spec s sub :
  contains s sub = true <-> exists p q, s = p ++ sub ++ q.
Proof.
  induction s as [|c s IH]; cbn [contains]; rewrite orb_true_iff.
  - rewrite startswith_spec. split.
    + intros [[q Hq]|?]; [|done]. exists [], q. done.
    + intros (p & q & H). left. destruct p; [by exists q | done].
  - rewrite startswith_spec, IH. split.
    + intros [[q Hq]|(p & q & ->)]; [by exists [], q | by exists (c :: p), q].
    + intros (p & q & H). destruct p as [|d p].
      * left. by exists q.
      * right. injection H as -> ->. by exists p, q.
Qed.

(** X5: the loop gives no guess from a line when, and the keyword check fires
    only when, some keyword occurs as a substring anywhere in the
    lower-cased normalized text, also inside a longer word. *)
Theorem keyword_substring_blocks (U : UCD) (order : list str) (line : str) :
  (blocked U order (normalize line) = true <->
   exists keyword p q,
     keyword ∈ order /\ lower U (normalize line) = p ++ keyword ++ q)
  /\ (blocked U order (normalize line) = true ->
      line_guess U order line = None).
Proof.
  split.
  - unfold blocked. rewrite existsb_exists. split.
    + intros (k & Hk & Hc). apply contains_spec in Hc as (p & q & Hc).
      exists k, p, q. split; [by apply list_elem_of_In | done].
    + intros (k & p & q & Hk & Heq). exists k.
      split; [by apply list_elem_of_In|]. apply contains_spec. by exists p, q.
  - intros H. unfold line_guess. by rewrite H.
Qed.

Lemma keyword_substring_blocks_witness :
  line_guess Latin1.ucd skip_keywords (lit "Stacy Techman") = None.
Proof.
  apply (proj2 (keyword_substring_blocks Latin1.ucd skip_keywords
                  (lit "Stacy Techman"))).
  by vm_compute.
Defined.

(** ** A result is a fixed point *)

Lemma capitalized_fixed (U : UCD) t : capitalized U t -> capitalize U t = t.
Proof.
  intros [H1 H2]. unfold capitalize. rewrite H1, H2. apply firstn_skipn.
Qed.

Lemma replace_hyphen_chars t :
  replace HYPHEN [] t = List.filter (fun c => negb (c =? HYPHEN)) t.
Proof.
  induction t as [|c t IH]; simpl; [done|].
  rewrite IH. by destruct (c =? HYPHEN).
Qed.

Section FixedPoint.

Variable U : UCD.
Hypothesis HU : UCD_ok U.

Lemma is_alpha_token_letters t :
  Forall (fun c => ascii_isalpha c = true \/ c = HYPHEN) t ->
  Exists (fun c => c <> HYPHEN) t ->
  is_alpha_token U t = true.
Proof using HU.
  intros Hall Hex. unfold is_alpha_token, str_isalpha.
  rewrite replace_hyphen_chars. apply andb_true_iff. split.
  - induction Hex as [c t Hc|c t _ IH]; simpl.
    + by destruct (N.eqb_spec c HYPHEN).
    + inversion Hall; subst. destruct (c =? HYPHEN); [by apply IH | done].
  - clear Hex. induction Hall as [|c t Hc _ IH]; simpl; [done|].
    destruct (N.eqb_spec c HYPHEN) as [-> | Hne]; simpl; [done|].
    rewrite IH, andb_true_r. destruct Hc as [Hc|Hc]; [|done].
    rewrite (isalpha_ascii U HU); [done|]. char_cases.
Qed.

Lemma alpha_token_has_letter t :
  is_alpha_token U t = true -> Exists (fun c => c <> HYPHEN) t.
Proof.
  unfold is_alpha_token, str_isalpha. rewrite replace_hyphen_chars.
  intros H. apply andb_true_iff in H as [H _].
  induction t as [|c t IH]; simpl in H; [done|].
  destruct (N.eqb_spec c HYPHEN) as [-> | Hne]; simpl in H.
  - apply Exists_cons_tl. by apply IH.
  - by apply Exists_cons_hd.
Qed.

(** The capitalisation of an ASCII alpha token is again one, made of
    letters and hyphens, and capitalising it once more changes nothing. *)
Lemma capitalize_alpha_token a :
  is_token a -> Forall is_ascii a -> is_alpha_token U a = true ->
  is_token (capitalize U a)
  /\ Forall (fun c => ascii_isalpha c = true \/ c = HYPHEN) (capitalize U a)
  /\ is_alpha_token U (capitalize U a) = true
  /\ capitalize U (capitalize U a) = capitalize U a.
Proof using HU.
  intros Ta Ha Aa.
  destruct (capitalize_ascii_shape U HU a Ta Ha Aa) as [Hshape Hcap].
  pose proof (alpha_token_has_letter a Aa) as Hex.
  pose proof (alpha_token_chars U HU a Ha Aa) as Hch.
  assert (Forall (fun c => ascii_isalpha c = true \/ c = HYPHEN) (capitalize U a))
    as Hletters.
  { destruct (capitalize U a) as [|c r]; [done|]. destruct Hshape as [Hc Hr].
    constructor.
    - destruct Hc as [Hc|Hc]; [left | by right].
      unfold ascii_isalpha. by rewrite Hc.
    - eapply Forall_impl; [exact Hr|]. intros d [Hd|Hd]; [left | by right].
      unfold ascii_isalpha. by rewrite Hd, orb_true_r. }
  split_and!; [by apply capitalize_token | done | | by apply capitalized_fixed].
  apply is_alpha_token_letters; [done|].
  rewrite (capitalize_ascii_map U HU a Ha).
  destruct Ta as [Hne _]. destruct a as [|c r]; [done|].
  change (firstn 1 (c :: r)) with [c]. change (skipn 1 (c :: r)) with r.
  cbn [List.map app]. inversion Hex as [? ? Hc|? ? Hr]; subst.
  - apply Exists_cons_hd. by rewrite ascii_upper_hyphen.
  - apply Exists_cons_tl. clear -Hr.
    induction Hr as [d r Hd|d r _ IH]; simpl.
    + apply Exists_cons_hd. by rewrite ascii_lower_hyphen.
    + by apply Exists_cons_tl.
Qed.

Lemma two_tokens_guess order A B :
  is_token A -> is_token B ->
  Forall (fun c => ascii_isalpha c = true \/ c = HYPHEN) A ->
  Forall (fun c => ascii_isalpha c = true \/ c = HYPHEN) B ->
  is_alpha_token U A = true -> is_alpha_token U B = true ->
  capitalize U A = A -> capitalize U B = B ->
  guess_with U order (A ++ [SPACE] ++ B) = A ++ [SPACE] ++ B.
Proof.
  intros TA TB LA LB AA AB CA CB.
  set (r := A ++ [SPACE] ++ B).
  assert (Forall (fun c => ascii_isalpha c = true \/ c = HYPHEN \/ c = SPACE) r)
    as Hr.
  { unfold r. apply Forall_app. split; [|constructor; [by right; right|]].
    - eapply Forall_impl; [exact LA|]. simpl. tauto.
    - eapply Forall_impl; [exact LB|]. simpl. tauto. }
  assert (alpha_tokens U r = [A; B]) as Htok.
  { unfold alpha_tokens, r. rewrite split_two by done. simpl. by rewrite AA, AB. }
  assert (first_two U [A; B] = r) as Hfirst.
  { unfold first_two. simpl. by rewrite CA, CB. }
  assert (fallback U r = r) as Hfb.
  { rewrite fallback_spec. cbn zeta. unfold alpha_tokens.
    rewrite split_replace_newline. fold (alpha_tokens U r). by rewrite Htok. }
  assert (normalize r = r) as Hnorm.
  { unfold normalize. destruct (contains r [COLON]) eqn:Hc; [|done].
    apply contains_colon_In in Hc. rewrite Forall_forall in Hr.
    destruct (Hr _ Hc) as [H|[H|H]]; [|done..]. by vm_compute in H. }
  assert (line_guess U order r = Some r \/ line_guess U order r = None) as Hline.
  { rewrite line_guess_spec, Hnorm, Htok, Hfirst.
    destruct (qualifies U order r); auto. }
  assert (candidate_lines r = [r] \/ candidate_lines r = []) as Hcand.
  { unfold candidate_lines. rewrite splitlines_single; cycle 1.
    - eapply Forall_impl; [exact Hr|]. intros c Hc. simpl in Hc.
      destruct (is_linebreak c) eqn:Hb; [|done]. exfalso.
      destruct Hc as [H|[->| ->]]; [|done..]. char_cases.
    - destruct TA as [HA _]. unfold r. by destruct A.
    - assert (strip r = r) as Hs.
      { unfold strip. destruct TA as [HA FA]. destruct A as [|c A']; [done|].
        inversion FA; subst. unfold r at 1.
        change ((c :: A') ++ [SPACE] ++ B) with (c :: (A' ++ [SPACE] ++ B)).
        rewrite lstrip_nonspace_head by done.
        destruct TB as [HB FB]. destruct B as [|d B' _] using rev_ind; [done|].
        apply Forall_app in FB as [_ FB]. inversion FB; subst.
        assert (c :: A' ++ [SPACE] ++ B' ++ [d]
                = (c :: A' ++ [SPACE] ++ B') ++ [d]) as Hassoc
          by (simpl; by rewrite <- app_assoc).
        rewrite Hassoc. rewrite rstrip_nonspace_last by done.
        by rewrite <- Hassoc. }
      cbn [List.filter]. rewrite Hs.
      destruct (truthy r && _); simpl; [left; by rewrite Hs | by right]. }
  unfold guess_with, line_scan.
  destruct Hcand as [-> | ->]; simpl; [|done].
  by destruct Hline as [-> | ->].
Qed.

End FixedPoint.

(** X6: on ASCII text a result fed back as text gives itself. *)
Theorem guess_idempotent (U : UCD) (HU : UCD_ok U) (text : str) :
  Forall is_ascii text ->
  guess_candidate_name U (guess_candidate_name U text)
  = guess_candidate_name U text.
Proof.
  intros Htext. unfold guess_candidate_name.
  destruct (guess_source U skip_keywords text) as [-> | (s & HP & Hlen & Heq)];
    [done|].
  rewrite Heq. specialize (HP is_ascii).
  assert (Forall is_ascii s) as Hs by (by apply HP).
  pose proof (alpha_tokens_are_tokens U s) as Ht.
  pose proof (alpha_tokens_Forall is_ascii U s Hs) as Ha.
  destruct (alpha_tokens U s) as [|a [|b ts]]; simpl in Hlen; try lia.
  inversion Ht as [|? ? [Ta Aa] Ht']; subst.
  inversion Ht' as [|? ? [Tb Ab] _]; subst.
  inversion Ha as [|? ? Ha1 Ha']; subst. inversion Ha' as [|? ? Hb1 _]; subst.
  destruct (capitalize_alpha_token U HU a Ta Ha1 Aa) as (? & ? & ? & ?).
  destruct (capitalize_alpha_token U HU b Tb Hb1 Ab) as (? & ? & ? & ?).
  unfold first_two. simpl. by apply two_tokens_guess.
Qed.

Lemma guess_idempotent_witness :
  guess_candidate_name Latin1.ucd (guess_candidate_name Latin1.ucd contact_example)
  = guess_candidate_name Latin1.ucd contact_example.
Proof.
  apply (guess_idempotent Latin1.ucd Latin1_ok). by apply ascii_check.
Defined.

(** ** The length of a result of the line scan *)

Lemma lstrip_length s : (length (lstrip s) <= length s)%nat.
Proof.
  induction s as [|c s IH]; simpl; [lia|].
  destruct (is_space c); simpl; lia.
Qed.

Lemma strip_length s : (length (strip s) <= length s)%nat.
Proof.
  unfold strip, rstrip. rewrite length_rev.
  pose proof (lstrip_length (rev (lstrip s))) as H1.
  rewrite length_rev in H1. pose proof (lstrip_length s). lia.
Qed.

Lemma normalize_length line : (length (normalize line) <= length line)%nat.
Proof.
  destruct (contains line [COLON]) eqn:Hc.
  - apply contains_colon_In, list_elem_of_split_l in Hc
      as (label & rest & -> & Hn).
    rewrite normalize_colon by done. pose proof (strip_length rest).
    rewrite length_app. simpl. lia.
  - unfold normalize. by rewrite Hc.
Qed.

Lemma split_cons_nonspace c s :
  is_space c = false ->
  split (c :: s)
  = match s with
    | [] => [[c]]
    | c' :: _ =>
        if is_space c' then [c] :: split s
        else match split s with [] => [[c]] | t :: ts => (c :: t) :: ts end
    end.
Proof. intros H. destruct s; simpl; by rewrite H. Qed.

Lemma list_sum_step x l : list_sum (x :: l) = (x + list_sum l)%nat.
Proof. reflexivity. Qed.

Lemma split_span s :
  (list_sum (List.map (fun t => S (length t)) (split s))
   + (if match s with c :: _ => is_space c | [] => false end then 1 else 0)
   <= S (length s))%nat.
Proof.
  induction s as [|c s IH]; [simpl; lia|].
  lazy match. destruct (is_space c) eqn:Hc.
  - rewrite split_space by done. cbn [length].
    destruct (match s with [] => _ | _ => _ end); lia.
  - rewrite split_cons_nonspace by done.
    destruct s as [|c' s']; [simpl; lia|]. lazy match in IH.
    destruct (is_space c') eqn:Hc'.
    + cbn [List.map length] in *; rewrite ?list_sum_step in *; change (list_sum []) with 0%nat in *. lia.
    + destruct (split (c' :: s')) as [|t ts];
        cbn [List.map length] in *; rewrite ?list_sum_step in *; change (list_sum []) with 0%nat in *; lia.
Qed.

Lemma filter_span {A} (f : A -> bool) (g : A -> nat) l :
  (list_sum (List.map g (List.filter f l)) <= list_sum (List.map g l))%nat.
Proof.
  induction l as [|x l IH]; simpl; [lia|]. destruct (f x); simpl; lia.
Qed.

Lemma capitalize_ascii_length (U : UCD) (HU : UCD_ok U) t :
  Forall is_ascii t -> length (capitalize U t) = length t.
Proof.
  intros H. rewrite (capitalize_ascii_map U HU t H).
  rewrite length_app, !length_map, <- length_app. by rewrite firstn_skipn.
Qed.

Lemma candidate_line_length text cl :
  cl ∈ candidate_lines text -> (length cl <= 60)%nat.
Proof.
  unfold candidate_lines. intros H.
  apply list_elem_of_In, in_map_iff in H as (l & <- & Hl).
  apply filter_In in Hl as [_ Hl]. apply andb_true_iff in Hl as [_ Hl].
  by apply Nat.leb_le.
Qed.

(** X7: on ASCII text a result that comes from the loop is no longer than
    the candidate line it was read from, one of the first 20, hence at most
    60 characters; the fallback has no such bound. *)
Theorem line_scan_result_length (U : UCD) (HU : UCD_ok U) (text r : str) :
  Forall is_ascii text ->
  line_scan U skip_keywords text = Some r ->
  exists i line,
    (i < 20)%nat
    /\ candidate_lines text !! i = Some line
    /\ line_guess U skip_keywords line = Some r
    /\ (length r <= length line)%nat
    /\ (length line <= 60)%nat.
Proof.
  intros Htext H. unfold line_scan in H.
  apply scan_Some_lookup in H as (i & line & Hi & Hg & _).
  assert (i < 20)%nat as Hlt.
  { apply lookup_lt_Some in Hi. rewrite length_take in Hi. lia. }
  rewrite lookup_take_lt in Hi by done.
  assert (line ∈ candidate_lines text) as Hin
    by (apply list_elem_of_lookup; eauto).
  exists i, line. split_and!; [done | done | done | | by apply (candidate_line_length text)].
  rewrite line_guess_spec in Hg.
  destruct (qualifies U skip_keywords line) eqn:Hq; [|done].
  injection Hg as <-.
  pose proof (normalize_length line) as Hnorm.
  assert (Forall is_ascii (normalize line)) as Hascii.
  { apply normalize_Forall.
    pose proof (candidate_lines_Forall is_ascii text Htext) as Hc.
    rewrite Forall_forall in Hc. by apply Hc. }
  pose proof (alpha_tokens_Forall is_ascii U _ Hascii) as Ha.
  unfold qualifies in Hq. apply andb_true_iff in Hq as [_ Hq].
  apply Nat.leb_le in Hq.
  pose proof (split_span (normalize line)) as Hspan.
  pose proof (filter_span (is_alpha_token U) (fun t => S (length t))
                (split (normalize line))) as Hf.
  fold (alpha_tokens U (normalize line)) in Hf.
  destruct (alpha_tokens U (normalize line)) as [|a [|b ts]];
    simpl in Hq; try lia.
  inversion Ha as [|? ? Ha1 Ha']; subst. inversion Ha' as [|? ? Hb1 _]; subst.
  unfold first_two. cbn [nth]. rewrite !length_app.
  rewrite !(capitalize_ascii_length U HU) by done.
  cbn [List.map length] in *. rewrite ?list_sum_step in *.
  unfold str in *. lia.
Qed.

Lemma line_scan_result_length_witness :
  exists i line,
    (i < 20)%nat
    /\ candidate_lines (lit "Phone 1" ++ [LF] ++ lit "Name: JANE ANNE DOE") !! i
       = Some line
    /\ line_guess Latin1.ucd skip_keywords line = Some (lit "Jane Anne")
    /\ (length (lit "Jane Anne") <= length line)%nat
    /\ (length line <= 60)%nat.
Proof.
  apply (line_scan_result_length Latin1.ucd Latin1_ok
           (lit "Phone 1" ++ [LF] ++ lit "Name: JANE ANNE DOE") (lit "Jane Anne")).
  - by apply ascii_check.
  - by vm_compute.
Defined.

(** ** Whitespace around the text *)

Lemma strip_cons_space w l : is_space w = true -> strip (w :: l) = strip l.
Proof. intros H. unfold strip. simpl. by rewrite H. Qed.

Lemma lstrip_app s t : lstrip s <> [] -> lstrip (s ++ t) = lstrip s ++ t.
Proof.
  induction s as [|c s IH]; simpl; [done|].
  destruct (is_space c); [exact IH | done].
Qed.

Lemma strip_app_spaces s ws :
  Forall (fun c => is_space c = true) ws -> strip (s ++ ws) = strip s.
Proof.
  intros H. unfold strip. destruct (lstrip s) as [|c r] eqn:Hl.
  - destruct (lstrip_spaces s) as (ws' & Hws' & Hs). rewrite Hl, app_nil_r in Hs.
    subst s. rewrite lstrip_all_spaces; [done|]. by apply Forall_app.
  - rewrite lstrip_app by (by rewrite Hl). rewrite Hl.
    by apply rstrip_app_spaces.
Qed.

Lemma candidate_lines_cons_break c s :
  is_linebreak c = true ->
  candidate_lines (c :: s) = candidate_lines (after_break c s).
Proof.
  intros H. unfold candidate_lines. by rewrite splitlines_break.
Qed.

Lemma candidate_lines_app_line l b rest :
  Forall (fun c => is_linebreak c = false) l ->
  is_linebreak b = true ->
  candidate_lines (l ++ b :: rest)
  = candidate_lines l ++ candidate_lines (after_break b rest).
Proof.
  intros Hl Hb. unfold candidate_lines. rewrite splitlines_line by done.
  destruct l as [|c l']; [done|].
  rewrite (splitlines_single (c :: l')) by done.
  cbn [List.filter]. by destruct (truthy _ && _).
Qed.

Lemma candidate_lines_single_line l :
  Forall (fun c => is_linebreak c = false) l ->
  candidate_lines l
  = if truthy (strip l) && (length (strip l) <=? 60)%nat then [strip l] else [].
Proof.
  intros Hl. unfold candidate_lines. destruct l as [|c l']; [done|].
  rewrite splitlines_single by done. cbn [List.filter].
  by destruct (truthy _ && _).
Qed.

Lemma candidate_lines_spaces ws :
  Forall (fun c => is_space c = true) ws -> candidate_lines ws = [].
Proof.
  intros H. unfold candidate_lines.
  pose proof (splitlines_Forall _ _ H) as Hs.
  induction Hs as [|l ls Hl _ IH]; [done|].
  cbn [List.filter]. by rewrite (strip_all_spaces l Hl).
Qed.

Lemma after_break_spaces b ws :
  Forall (fun c => is_space c = true) ws ->
  Forall (fun c => is_space c = true) (after_break b ws).
Proof.
  intros H. destruct (after_break_suffix b ws) as [p Hp].
  rewrite Hp in H. by apply Forall_app in H as [_ ?].
Qed.

Lemma after_break_LF s : after_break LF s = s.
Proof. by destruct s. Qed.

Lemma candidate_lines_after_break b s :
  is_linebreak b = true ->
  candidate_lines (after_break b s) = candidate_lines s.
Proof.
  intros Hb. destruct s as [|c s']; [done|]. simpl.
  destruct ((b =? CR) && (c =? LF)) eqn:H; [|done].
  apply andb_true_iff in H as [_ H]. apply N.eqb_eq in H as ->.
  rewrite candidate_lines_cons_break by done. by rewrite after_break_LF.
Qed.

Lemma candidate_lines_cons_space w s :
  is_space w = true -> candidate_lines (w :: s) = candidate_lines s.
Proof.
  intros Hw. destruct (is_linebreak w) eqn:Hb.
  - rewrite candidate_lines_cons_break by done.
    by apply candidate_lines_after_break.
  - unfold candidate_lines. rewrite splitlines_char by done.
    destruct (splitlines s) as [|l ls]; cbn [List.filter List.map].
    + rewrite (strip_cons_space w []) by exact Hw. reflexivity.
    + rewrite strip_cons_space by done.
      destruct (truthy (strip l) && _); cbn [List.map]; [|done].
      by rewrite strip_cons_space.
Qed.

Lemma candidate_lines_prefix ws s :
  Forall (fun c => is_space c = true) ws ->
  candidate_lines (ws ++ s) = candidate_lines s.
Proof.
  induction 1 as [|w ws Hw _ IH]; [done|].
  change ((w :: ws) ++ s) with (w :: (ws ++ s)).
  by rewrite candidate_lines_cons_space.
Qed.

Lemma after_break_app b c s t :
  after_break b ((c :: s) ++ t) = after_break b (c :: s) ++ t.
Proof. simpl. by destruct ((b =? CR) && (c =? LF)). Qed.

Lemma candidate_lines_suffix s ws :
  Forall (fun c => is_space c = true) ws ->
  candidate_lines (s ++ ws) = candidate_lines s.
Proof.
  intros Hws. induction s as [s IH] using length_ind.
  destruct (first_break s) as [Hs|(l & b & rest & -> & Hl & Hb)].
  - destruct (first_break ws) as [Hw|(l' & b' & rest' & -> & Hl' & Hb')].
    + rewrite !candidate_lines_single_line by (done || by apply Forall_app).
      by rewrite strip_app_spaces.
    + apply Forall_app in Hws as [Hws1 Hws2]. inversion Hws2; subst.
      rewrite app_assoc, candidate_lines_app_line by (done || by apply Forall_app).
      rewrite (candidate_lines_spaces (after_break b' rest'))
        by (by apply after_break_spaces).
      rewrite !candidate_lines_single_line by (done || by apply Forall_app).
      by rewrite strip_app_spaces, app_nil_r.
  - rewrite <- app_assoc. change ((b :: rest) ++ ws) with (b :: (rest ++ ws)).
    rewrite !candidate_lines_app_line by done. f_equal.
    destruct rest as [|c rest'].
    + rewrite app_nil_l. apply candidate_lines_spaces.
      by apply after_break_spaces.
    + rewrite after_break_app. apply IH.
      pose proof (after_break_length b (c :: rest')).
      rewrite length_app. simpl in *. lia.
Qed.

Lemma split_prefix_spaces ws s :
  Forall (fun c => is_space c = true) ws -> split (ws ++ s) = split s.
Proof.
  induction 1 as [|w ws Hw _ IH]; [done|].
  change ((w :: ws) ++ s) with (w :: (ws ++ s)). by rewrite split_space.
Qed.

(** X8: whitespace before and after the text has no part in the result, so
    the trimming done by [extract_text] does not change the name guessed. *)
Theorem guess_surrounding_whitespace (U : UCD) :
  (forall ws1 text ws2,
      Forall (fun c => is_space c = true) ws1 ->
      Forall (fun c => is_space c = true) ws2 ->
      guess_candidate_name U (ws1 ++ text ++ ws2) = guess_candidate_name U text)
  /\ (forall text,
         guess_candidate_name U (strip text) = guess_candidate_name U text).
Proof.
  assert (forall ws1 text ws2,
      Forall (fun c => is_space c = true) ws1 ->
      Forall (fun c => is_space c = true) ws2 ->
      guess_candidate_name U (ws1 ++ text ++ ws2) = guess_candidate_name U text)
    as Hmain.
  { intros ws1 text ws2 H1 H2.
    unfold guess_candidate_name, guess_with, line_scan.
    rewrite candidate_lines_prefix, candidate_lines_suffix by done.
    rewrite !fallback_spec. cbn zeta. unfold alpha_tokens.
    rewrite !split_replace_newline.
    by rewrite split_prefix_spaces, split_app_spaces by done. }
  split; [exact Hmain|].
  intros text. destruct (lstrip_spaces text) as (ws1 & H1 & Heq1).
  destruct (rstrip_spaces (lstrip text)) as (ws2 & H2 & Heq2).
  fold (strip text) in Heq2. rewrite Heq2 in Heq1.
  rewrite Heq1 at 2. symmetry. by apply Hmain.
Qed.

Lemma guess_surrounding_whitespace_witness :
  guess_candidate_name Latin1.ucd
    ([LF; SPACE] ++ lit "jane doe" ++ [SPACE; CR; LF; 9])
  = guess_candidate_name Latin1.ucd (lit "jane doe").
Proof.
  apply (proj1 (guess_surrounding_whitespace Latin1.ucd)).
  - by repeat constructor.
  - by repeat constructor.
Defined.

(** ** The letter case of the text *)

Lemma last_map {A B} (g : A -> B) (l : list A) d :
  List.last (List.map g l) (g d) = g (List.last l d).
Proof.
  induction l as [|x l IH]; [done|]. destruct l; [done|]. exact IH.
Qed.

Lemma filter_map_swap {A B} (p : B -> bool) (g : A -> B) (l : list A) :
  List.filter p (List.map g l) = List.map g (List.filter (fun x => p (g x)) l).
Proof.
  induction l as [|x l IH]; simpl; [done|].
  rewrite IH. by destruct (p (g x)).
Qed.

Lemma filter_ext_Forall {A} (p q : A -> bool) (P : A -> Prop) l :
  (forall x, P x -> p x = q x) -> Forall P l -> List.filter p l = List.filter q l.
Proof.
  intros Hpq. induction 1 as [|x l Hx _ IH]; simpl; [done|].
  by rewrite IH, (Hpq x Hx).
Qed.

Section CaseMap.

(** A change of characters that keeps every class the function looks at
    and is undone by case conversion: upper-casing, lower-casing. *)
Variable f : N -> N.
Hypothesis f_space : forall c, is_space (f c) = is_space c.
Hypothesis f_break : forall c, is_linebreak (f c) = is_linebreak c.
Hypothesis f_CR : forall c, (f c =? CR) = (c =? CR).
Hypothesis f_LF : forall c, (f c =? LF) = (c =? LF).
Hypothesis f_COLON : forall c, (f c =? COLON) = (c =? COLON).
Hypothesis f_HYPHEN : forall c, (f c =? HYPHEN) = (c =? HYPHEN).
Hypothesis f_ascii : forall c, is_ascii c -> is_ascii (f c).
Hypothesis f_alpha : forall c, ascii_isalpha (f c) = ascii_isalpha c.
Hypothesis f_upper : forall c, ascii_upper (f c) = ascii_upper c.
Hypothesis f_lower : forall c, ascii_lower (f c) = ascii_lower c.

Lemma after_break_map c s :
  after_break (f c) (List.map f s) = List.map f (after_break c s).
Proof using f_CR f_LF.
  destruct s as [|c' s']; [done|]. simpl. rewrite f_CR, f_LF.
  by destruct ((c =? CR) && (c' =? LF)).
Qed.

Lemma splitlines_map s :
  splitlines (List.map f s) = List.map (List.map f) (splitlines s).
Proof using f_CR f_LF f_break.
  induction s as [s IH] using length_ind.
  destruct s as [|c s']; [done|]. cbn [List.map].
  destruct (is_linebreak c) eqn:Hb.
  - rewrite !splitlines_break by (done || by rewrite f_break).
    rewrite after_break_map, IH; [done|].
    pose proof (after_break_length c s'). simpl. lia.
  - rewrite !splitlines_char by (done || by rewrite f_break).
    rewrite IH by (simpl; lia). by destruct (splitlines s').
Qed.

Lemma lstrip_map s : lstrip (List.map f s) = List.map f (lstrip s).
Proof using f_space.
  induction s as [|c s IH]; simpl; [done|]. rewrite f_space.
  by destruct (is_space c).
Qed.

Lemma strip_map s : strip (List.map f s) = List.map f (strip s).
Proof using f_space.
  unfold strip, rstrip.
  by rewrite lstrip_map, <- List.map_rev, lstrip_map, List.map_rev.
Qed.

Lemma split_map s : split (List.map f s) = List.map (List.map f) (split s).
Proof using f_space.
  induction s as [|c s IH]; [done|]. cbn [List.map].
  destruct (is_space c) eqn:Hc.
  - by rewrite !split_space by (done || by rewrite f_space).
  - rewrite !split_cons_nonspace by (done || by rewrite f_space).
    destruct s as [|c' s']; [done|]. cbn [List.map] in *.
    rewrite f_space, IH. destruct (is_space c'); [done|].
    by destruct (split (c' :: s')).
Qed.

Lemma contains_colon_map s :
  contains (List.map f s) [COLON] = contains s [COLON].
Proof using f_COLON.
  rewrite !contains_char. induction s as [|c s IH]; [done|].
  cbn [List.map List.existsb].
  by rewrite IH, (N.eqb_sym COLON (f c)), f_COLON, (N.eqb_sym c COLON).
Qed.

Lemma split_colon_1_map s :
  split_colon_1 (List.map f s) = List.map (List.map f) (split_colon_1 s).
Proof using f_COLON.
  induction s as [|c s IH]; simpl; [done|]. rewrite f_COLON, IH.
  destruct (c =? COLON); [done|]. by destruct (split_colon_1 s).
Qed.

Lemma normalize_map line : normalize (List.map f line) = List.map f (normalize line).
Proof using f_COLON f_space.
  unfold normalize. rewrite contains_colon_map.
  destruct (contains line [COLON]); [|done].
  rewrite split_colon_1_map.
  change (@nil N) with (List.map f []) at 1.
  by rewrite last_map, strip_map.
Qed.

Lemma candidate_lines_map text :
  candidate_lines (List.map f text) = List.map (List.map f) (candidate_lines text).
Proof using f_CR f_LF f_break f_space.
  unfold candidate_lines. rewrite splitlines_map, filter_map_swap, !List.map_map.
  induction (splitlines text) as [|l ls IH]; [done|]. cbn [List.filter].
  rewrite strip_map, length_map.
  replace (truthy (List.map f (strip l))) with (truthy (strip l))
    by (by destruct (strip l)).
  destruct (truthy (strip l) && _); cbn [List.map]; [|done].
  by rewrite strip_map, IH.
Qed.

Variable U : UCD.
Hypothesis HU : UCD_ok U.

Lemma replace_hyphen_map t :
  replace HYPHEN [] (List.map f t) = List.map f (replace HYPHEN [] t).
Proof using f_HYPHEN.
  induction t as [|c t IH]; [done|].
  change (replace HYPHEN [] (List.map f (c :: t)))
    with ((if f c =? HYPHEN then [] else [f c]) ++ replace HYPHEN [] (List.map f t)).
  change (replace HYPHEN [] (c :: t))
    with ((if c =? HYPHEN then [] else [c]) ++ replace HYPHEN [] t).
  rewrite f_HYPHEN, IH. by destruct (c =? HYPHEN).
Qed.

Lemma str_isalpha_map s :
  Forall is_ascii s -> str_isalpha U (List.map f s) = str_isalpha U s.
Proof using HU f_alpha f_ascii.
  intros Hs. unfold str_isalpha. f_equal; [by destruct s|].
  induction Hs as [|c s Hc _ IH]; [done|]. cbn [List.map List.forallb].
  by rewrite IH, (isalpha_ascii U HU (f c)), (isalpha_ascii U HU c), f_alpha
    by (done || by apply f_ascii).
Qed.

Lemma is_alpha_token_map t :
  Forall is_ascii t -> is_alpha_token U (List.map f t) = is_alpha_token U t.
Proof using HU f_HYPHEN f_alpha f_ascii.
  intros Ht. unfold is_alpha_token. rewrite replace_hyphen_map.
  apply str_isalpha_map. by apply replace_Forall.
Qed.

Lemma alpha_tokens_map s :
  Forall is_ascii s ->
  alpha_tokens U (List.map f s) = List.map (List.map f) (alpha_tokens U s).
Proof using HU f_HYPHEN f_alpha f_ascii f_space.
  intros Hs. unfold alpha_tokens. rewrite split_map, filter_map_swap.
  f_equal. apply (filter_ext_Forall _ _ (Forall is_ascii)).
  - intros t Ht. by apply is_alpha_token_map.
  - by apply split_Forall.
Qed.

Lemma capitalize_map t :
  Forall is_ascii t -> capitalize U (List.map f t) = capitalize U t.
Proof using HU f_ascii f_lower f_upper.
  intros Ht.
  assert (Forall is_ascii (List.map f t)) as Hft.
  { apply Forall_map. eapply Forall_impl; [exact Ht|]. apply f_ascii. }
  rewrite !(capitalize_ascii_map U HU) by done.
  rewrite List.firstn_map, List.skipn_map, !List.map_map.
  f_equal; apply List.map_ext; intros c; [apply f_upper | apply f_lower].
Qed.

Lemma first_two_map tokens :
  Forall (Forall is_ascii) tokens ->
  first_two U (List.map (List.map f) tokens) = first_two U tokens.
Proof using HU f_ascii f_lower f_upper.
  intros H. unfold first_two.
  assert (forall i, Forall is_ascii (nth i tokens [])) as Hn.
  { intros i. revert i. induction H as [|t ts Ht _ IH]; intros [|i]; simpl;
      auto using Forall_nil. }
  change (@nil N) with (List.map f []) at 1 3.
  by rewrite !List.map_nth, !capitalize_map.
Qed.

Variable order : list str.

Lemma blocked_map s :
  Forall is_ascii s -> blocked U order (List.map f s) = blocked U order s.
Proof using HU f_ascii f_lower.
  intros Hs. unfold blocked.
  rewrite !(lower_ascii U HU), List.map_map; [|done|].
  - by rewrite (List.map_ext _ _ f_lower).
  - apply Forall_map. eapply Forall_impl; [exact Hs|]. apply f_ascii.
Qed.

Lemma line_guess_map line :
  Forall is_ascii line ->
  line_guess U order (List.map f line) = line_guess U order line.
Proof using HU f_COLON f_HYPHEN f_alpha f_ascii f_lower f_space f_upper.
  intros Hl. pose proof (normalize_Forall _ _ Hl) as Hn.
  rewrite !line_guess_spec. unfold qualifies.
  rewrite normalize_map, blocked_map, alpha_tokens_map, length_map by done.
  by rewrite first_two_map by (by apply alpha_tokens_Forall).
Qed.

Lemma scan_map lines :
  Forall (Forall is_ascii) lines ->
  scan U order (List.map (List.map f) lines) = scan U order lines.
Proof using HU f_COLON f_HYPHEN f_alpha f_ascii f_lower f_space f_upper.
  induction 1 as [|l ls Hl _ IH]; [done|]. cbn [List.map scan].
  by rewrite line_guess_map, IH.
Qed.

Lemma fallback_map text :
  Forall is_ascii text -> fallback U (List.map f text) = fallback U text.
Proof using HU f_HYPHEN f_alpha f_ascii f_lower f_space f_upper.
  intros Ht. rewrite !fallback_spec. cbn zeta. unfold alpha_tokens.
  rewrite !split_replace_newline.
  fold (alpha_tokens U (List.map f text)). fold (alpha_tokens U text).
  rewrite alpha_tokens_map, length_map by done.
  by rewrite first_two_map by (by apply alpha_tokens_Forall).
Qed.

Lemma guess_with_map text :
  Forall is_ascii text ->
  guess_with U order (List.map f text) = guess_with U order text.
Proof using All.
  intros Ht. unfold guess_with, line_scan.
  rewrite candidate_lines_map, List.firstn_map.
  rewrite scan_map by (by apply Forall_take, candidate_lines_Forall).
  by rewrite fallback_map.
Qed.

End CaseMap.

Lemma ascii_lower_upper c : ascii_lower (ascii_upper c) = ascii_lower c.
Proof.
  unfold ascii_upper. destruct (ascii_islower c) eqn:H; [|done].
  unfold ascii_lower.
  replace (ascii_isupper (c - 32)) with true by (symmetry; char_cases).
  replace (ascii_isupper c) with false by (symmetry; char_cases).
  char_prop. lia.
Qed.

Lemma ascii_upper_lower c : ascii_upper (ascii_lower c) = ascii_upper c.
Proof.
  unfold ascii_lower. destruct (ascii_isupper c) eqn:H; [|done].
  unfold ascii_upper.
  replace (ascii_islower (c + 32)) with true by (symmetry; char_cases).
  replace (ascii_islower c) with false by (symmetry; char_cases).
  char_prop. lia.
Qed.

Ltac bool_eq :=
  match goal with
  | |- ?a = ?b =>
      let Ha := fresh in let Hb := fresh in
      destruct a eqn:Ha; destruct b eqn:Hb; try done; exfalso; char_cases
  end.

Lemma ascii_upper_classes c :
  is_space (ascii_upper c) = is_space c
  /\ is_linebreak (ascii_upper c) = is_linebreak c
  /\ (ascii_upper c =? CR) = (c =? CR)
  /\ (ascii_upper c =? LF) = (c =? LF)
  /\ (ascii_upper c =? COLON) = (c =? COLON)
  /\ (ascii_upper c =? HYPHEN) = (c =? HYPHEN)
  /\ ascii_isalpha (ascii_upper c) = ascii_isalpha c.
Proof.
  unfold ascii_upper. destruct (ascii_islower c) eqn:H; [|done].
  split_and!; bool_eq.
Qed.

Lemma ascii_lower_classes c :
  is_space (ascii_lower c) = is_space c
  /\ is_linebreak (ascii_lower c) = is_linebreak c
  /\ (ascii_lower c =? CR) = (c =? CR)
  /\ (ascii_lower c =? LF) = (c =? LF)
  /\ (ascii_lower c =? COLON) = (c =? COLON)
  /\ (ascii_lower c =? HYPHEN) = (c =? HYPHEN)
  /\ ascii_isalpha (ascii_lower c) = ascii_isalpha c.
Proof.
  unfold ascii_lower. destruct (ascii_isupper c) eqn:H; [|done].
  split_and!; bool_eq.
Qed.

(** X9: on ASCII text the result does not depend on the letter case of the
    input: the upper-cased and the lower-cased text give the result of the
    text itself. *)
Theorem guess_case_insensitive (U : UCD) (HU : UCD_ok U) (text : str) :
  Forall is_ascii text ->
  guess_candidate_name U (upper U text) = guess_candidate_name U text
  /\ guess_candidate_name U (lower U text) = guess_candidate_name U text.
Proof.
  intros Ht. rewrite (upper_ascii U HU), (lower_ascii U HU) by done.
  unfold guess_candidate_name. split.
  - apply (guess_with_map ascii_upper); try done;
      try (intros c; apply (ascii_upper_classes c)).
    + apply ascii_upper_ascii.
    + apply ascii_upper_idem.
    + apply ascii_lower_upper.
  - apply (guess_with_map ascii_lower); try done;
      try (intros c; apply (ascii_lower_classes c)).
    + apply ascii_lower_ascii.
    + apply ascii_upper_lower.
    + apply ascii_lower_idem.
Qed.

Lemma guess_case_insensitive_witness :
  guess_candidate_name Latin1.ucd (upper Latin1.ucd contact_example)
  = guess_candidate_name Latin1.ucd contact_example.
Proof.
  apply (proj1 (guess_case_insensitive Latin1.ucd Latin1_ok contact_example
                  ltac:(by apply ascii_check))).
Defined.
